(** * Newsletter digest: a shallow embedding of [digest.py]

    The script reads the unread messages of a Gmail mailbox, asks Gemini for
    a summary, mails the summary through AWS SES and only then marks the
    messages as read.  This file embeds the functions of [digest.py] as
    state-passing programs over an explicit model of the three remote
    services, and proves the ordering and failure properties of the
    pipeline.

    Conventions.
    - A Python [str] is a Coq [string] holding its UTF-8 encoding; [bytes]
      is a [string] too.  Lengths and slices of a [str] count code points.
    - Every remote call is answered by the [World]: either a value or a
      raised exception.  The calls are logged, with their arguments and
      whether they returned, in the order in which the program makes them.
    - The only durable state is the set of unread message ids of the
      mailbox; the only call that changes it is a [batchModify] that
      returns.  What a [batchModify] that raised has done to the mailbox
      is not known to the script; the model leaves the set as it is, and
      no theorem about a run in which the acknowledge call raised says
      anything of the set of unread messages. *)

From Stdlib Require Import ZArith NArith Ascii String DecimalString.
From stdpp Require Import base option list strings gmap.

Local Open Scope Z_scope.

(** ** Exceptions and results *)

(** The exception classes the script can meet.  All of them are subclasses
    of Python's [Exception]; [SystemExit], which is not, is an outcome of
    its own ([Exit] below).  Each value carries its [str()] text. *)
Inductive exn : Type :=
  | HttpError (msg : string)           (* googleapiclient.errors.HttpError *)
  | ValueError (msg : string)
  | BinasciiError (msg : string)       (* binascii.Error, a ValueError *)
  | UnicodeDecodeError (msg : string)  (* a ValueError as well *)
  | KeyError (msg : string)
  | ClientError (msg : string).        (* any other Exception raised by a
                                          client library: transport errors,
                                          token refresh, quota, ... *)

Definition exn_str (e : exn) : string :=
  match e with
  | HttpError m | ValueError m | BinasciiError m
  | UnicodeDecodeError m | KeyError m | ClientError m => m
  end.

(** [isinstance(e, HttpError)], the test of [except HttpError]. *)
Definition is_HttpError (e : exn) : bool :=
  match e with HttpError _ => true | _ => false end.

(** [isinstance(e, Exception)], the test of [except Exception]. *)
Definition is_Exception (e : exn) : bool := true.

(** The result of an expression that may raise. *)
Inductive result (A : Type) : Type :=
  | Ok (a : A)
  | Err (e : exn).
Arguments Ok {A} a.
Arguments Err {A} e.

Definition is_ok {A} (r : result A) : bool :=
  match r with Ok _ => true | Err _ => false end.

Definition result_bind {A B} (r : result A) (f : A → result B) : result B :=
  match r with Ok a => f a | Err e => Err e end.

(** ** Text helpers *)

Definition nl : string := String (ascii_of_nat 10) "".
Definition dq : string := String (ascii_of_nat 34) "".

(** [str(n)] for a non-negative integer. *)
Definition str_of_nat (n : nat) : string :=
  NilZero.string_of_uint (Nat.to_uint n).

(** [sep.join(l)]. *)
Fixpoint join (sep : string) (l : list string) : string :=
  match l with
  | [] => ""
  | [x] => x
  | x :: rest => x +:+ sep +:+ join sep rest
  end.

Definition bytes_of_string (s : string) : list N :=
  N_of_ascii <$> list_ascii_of_string s.

Definition string_of_bytes (bs : list N) : string :=
  string_of_list_ascii (ascii_of_N <$> bs).

(** A UTF-8 continuation byte, [10xxxxxx]. *)
Definition is_continuation (b : N) : bool := (N.land b 192 =? 128)%N.

(** [s[:n]] on a [str]: the first [n] code points.  The bytes of one code
    point are its lead byte and the continuation bytes after it. *)
Fixpoint py_take (n : nat) (s : string) : string :=
  match s with
  | EmptyString => ""
  | String c rest =>
      if is_continuation (N_of_ascii c) then String c (py_take n rest)
      else match n with
           | O => ""
           | S n' => String c (py_take n' rest)
           end
  end.

(** ** The parts of Python's standard library the script calls *)

Module Py.

(** [binascii.a2b_base64] in its default, non-strict mode: the table of
    the standard alphabet. *)
Definition table_a2b_base64 (c : N) : option N :=
  if ((65 <=? c) && (c <=? 90))%N then Some (c - 65)%N
  else if ((97 <=? c) && (c <=? 122))%N then Some (c - 97 + 26)%N
  else if ((48 <=? c) && (c <=? 57))%N then Some (c - 48 + 52)%N
  else if (c =? 43)%N then Some 62%N
  else if (c =? 47)%N then Some 63%N
  else None.

Definition BASE64_PAD : N := 61.

(** The decoding loop.  [quad_pos] is the position in the current group
    of four characters, [leftchar] the bits left over from the last
    character, [pads] the padding characters seen in a row and [nout] the
    number of bytes written so far.  Characters outside the alphabet are
    skipped; a complete padding ends the decoding; data that stops inside
    a group is an error. *)
Fixpoint a2b_loop (quad_pos : nat) (leftchar : N) (pads nout : nat)
    (data : list N) : result (list N) :=
  match data with
  | [] =>
      match quad_pos with
      | O => Ok []
      | 1%nat =>
          Err (BinasciiError
            ("Invalid base64-encoded string: number of data characters ("
             +:+ str_of_nat (nout / 3 * 4 + 1)
             +:+ ") cannot be 1 more than a multiple of 4"))
      | _ => Err (BinasciiError "Incorrect padding")
      end
  | this_ch :: rest =>
      if (this_ch =? BASE64_PAD)%N then
        if (2 <=? quad_pos)%nat then
          if (4 <=? quad_pos + S pads)%nat then Ok []
          else a2b_loop quad_pos leftchar (S pads) nout rest
        else a2b_loop quad_pos leftchar pads nout rest
      else
        match table_a2b_base64 this_ch with
        | None => a2b_loop quad_pos leftchar pads nout rest
        | Some v =>
            match quad_pos with
            | O => a2b_loop 1 v 0 nout rest
            | 1%nat =>
                result_bind
                  (a2b_loop 2 (N.land v 15) 0 (S nout) rest)
                  (λ out, Ok (N.lor (N.shiftl leftchar 2) (N.shiftr v 4)
                                `mod` 256 :: out)%N)
            | 2%nat =>
                result_bind
                  (a2b_loop 3 (N.land v 3) 0 (S nout) rest)
                  (λ out, Ok (N.lor (N.shiftl leftchar 4) (N.shiftr v 2)
                                `mod` 256 :: out)%N)
            | _ =>
                result_bind
                  (a2b_loop 0 0 0 (S nout) rest)
                  (λ out, Ok (N.lor (N.shiftl leftchar 6) v
                                `mod` 256 :: out)%N)
            end
        end
  end.

Definition a2b_base64 (data : list N) : result (list N) :=
  a2b_loop 0 0 0 0 data.

(** [base64._bytes_from_decode_data] for a [str] argument: the string
    must be ASCII. *)
Definition bytes_from_decode_data (s : string) : result (list N) :=
  let bs := bytes_of_string s in
  if forallb (λ b, b <? 128)%N bs then Ok bs
  else Err (ValueError "string argument should contain only ASCII characters").

(** [base64.b64decode(s)]. *)
Definition b64decode (s : string) : result string :=
  result_bind (bytes_from_decode_data s) (λ bs,
  result_bind (a2b_base64 bs) (λ out, Ok (string_of_bytes out))).

(** [bytes.translate] with the URL-safe table: [-] becomes [+] and [_]
    becomes [/]. *)
Definition urlsafe_translate (b : N) : N :=
  if (b =? 45)%N then 43%N else if (b =? 95)%N then 47%N else b.

(** [base64.urlsafe_b64decode(s)]. *)
Definition urlsafe_b64decode (s : string) : result string :=
  result_bind (bytes_from_decode_data s) (λ bs,
  result_bind (a2b_base64 (urlsafe_translate <$> bs)) (λ out,
  Ok (string_of_bytes out))).

Definition hex_digit (n : N) : string :=
  String (ascii_of_N (if (n <? 10)%N then 48 + n else 87 + n)%N) "".

(** [%02x] of a byte. *)
Definition hex2 (b : N) : string :=
  hex_digit (b / 16)%N +:+ hex_digit (b `mod` 16)%N.

(** [str()] of a [UnicodeDecodeError] of the utf-8 codec on the bytes
    from [start] to [stop] (excluded), [b] being the byte at [start]. *)
Definition utf8_error (b : N) (start stop : nat) (reason : string) : exn :=
  UnicodeDecodeError
    (if (stop =? S start)%nat then
       "'utf-8' codec can't decode byte 0x" +:+ hex2 b +:+ " in position "
       +:+ str_of_nat start +:+ ": " +:+ reason
     else
       "'utf-8' codec can't decode bytes in position " +:+ str_of_nat start
       +:+ "-" +:+ str_of_nat (stop - 1) +:+ ": " +:+ reason).

(** The strict UTF-8 decoder: [None] when the bytes from position [pos]
    on are well formed, the error otherwise.  Overlong forms, surrogates
    and code points above U+10FFFF are rejected. *)
Fixpoint utf8_scan (pos : nat) (bs : list N) : option exn :=
  match bs with
  | [] => None
  | ch :: r1 =>
      if (ch <? 128)%N then utf8_scan (S pos) r1
      else if (ch <? 194)%N then
        Some (utf8_error ch pos (pos + 1) "invalid start byte")
      else if (ch <? 224)%N then
        match r1 with
        | [] => Some (utf8_error ch pos (pos + 1) "unexpected end of data")
        | ch2 :: r2 =>
            if is_continuation ch2 then utf8_scan (pos + 2) r2
            else Some (utf8_error ch pos (pos + 1) "invalid continuation byte")
        end
      else if (ch <? 240)%N then
        match r1 with
        | [] => Some (utf8_error ch pos (pos + 1) "unexpected end of data")
        | ch2 :: r2 =>
            if negb (is_continuation ch2)
               || (if (ch2 <? 160)%N then (ch =? 224)%N else (ch =? 237)%N)
            then Some (utf8_error ch pos (pos + 1) "invalid continuation byte")
            else
              match r2 with
              | [] => Some (utf8_error ch pos (pos + 2) "unexpected end of data")
              | ch3 :: r3 =>
                  if is_continuation ch3 then utf8_scan (pos + 3) r3
                  else Some (utf8_error ch pos (pos + 2)
                               "invalid continuation byte")
              end
        end
      else if (ch <? 245)%N then
        match r1 with
        | [] => Some (utf8_error ch pos (pos + 1) "unexpected end of data")
        | ch2 :: r2 =>
            if negb (is_continuation ch2)
               || (if (ch2 <? 144)%N then (ch =? 240)%N else (ch =? 244)%N)
            then Some (utf8_error ch pos (pos + 1) "invalid continuation byte")
            else
              match r2 with
              | [] => Some (utf8_error ch pos (pos + 2) "unexpected end of data")
              | ch3 :: r3 =>
                  if negb (is_continuation ch3)
                  then Some (utf8_error ch pos (pos + 2)
                               "invalid continuation byte")
                  else
                    match r3 with
                    | [] => Some (utf8_error ch pos (pos + 3)
                                    "unexpected end of data")
                    | ch4 :: r4 =>
                        if is_continuation ch4 then utf8_scan (pos + 4) r4
                        else Some (utf8_error ch pos (pos + 3)
                                     "invalid continuation byte")
                    end
              end
        end
      else Some (utf8_error ch pos (pos + 1) "invalid start byte")
  end.

(** [b.decode("utf-8")]: the text whose encoding is [b], when [b] is
    well-formed UTF-8. *)
Definition decode_utf8 (b : string) : result string :=
  match utf8_scan 0 (bytes_of_string b) with
  | None => Ok b
  | Some e => Err e
  end.

End Py.

(** ** Data *)

(** The Gmail API resources, with the fields the script reads.  A field the
    script tests for ([in], [.get]) is optional; a field it reads
    unconditionally is always there, as the API documents it. *)
Record Header := { name : string; value : string }.

(** [payload["body"]], [part["body"]]: [data] is absent for an attachment
    or an empty body. *)
Record Body := { data : option string }.

(** An element of [payload["parts"]]. *)
Record Part := { part_mimeType : string; part_body : Body }.

(** [message["payload"]]. *)
Record Payload := {
  mimeType : string;
  headers : list Header;
  body : option Body;
  parts : option (list Part)
}.

Record Message := { payload : Payload }.

(** An element of the [messages] list of a listing. *)
Record MessageRef := { ref_id : string }.

(** The response of [users().messages().list()]: the key [messages] is
    absent when nothing matches. *)
Record ListResponse := { messages : option (list MessageRef) }.

(** The dictionary [get_unread_emails] builds for one message. *)
Record Email := {
  id : string;
  subject : string;
  sender : string;
  date : string;
  email_body : string
}.

(** The message [send_summary_email] composes: a [MIMEMultipart] of kind
    [alternative] with a plain and an HTML part, attached in this order. *)
Record MimeMessage := {
  mime_Subject : string;
  mime_From : string;
  mime_To : string;
  mime_plain : string;
  mime_html : string
}.

(** The response of [send_raw_email]. *)
Record SendResponse := { MessageId : string }.

(** What [Credentials.from_authorized_user_info] returns. *)
Record Credentials := { token_info : string }.

(** ** The world outside the process *)

(** The answers of the environment to everything the script asks of it.
    Each remote call is made at most once with given arguments in a run
    (a message id listed twice is fetched twice, with the same answer), so
    an answer depends on the arguments only. *)
Record World := {
  (** [os.environ] *)
  environ : gmap string string;
  (** [str(datetime.now())] when [main] starts *)
  now : string;
  (** [datetime.now().strftime('%Y-%m-%d')] when the digest is composed *)
  today : string;
  (** [Credentials.from_authorized_user_info(json.loads(text))] *)
  credentials_from_json : string → result Credentials;
  (** [build("gmail", "v1", credentials=creds)] *)
  build_gmail : Credentials → result unit;
  (** [messages().list(userId="me", q="is:unread", maxResults=n).execute()] *)
  messages_list : Z → result ListResponse;
  (** [messages().get(userId="me", id=i, format="full").execute()] *)
  messages_get : string → result Message;
  (** [messages().batchModify(userId="me", body=...).execute()] *)
  messages_batchModify : list string → result unit;
  (** [genai.configure], [GenerativeModel("gemini-2.5-flash")],
      [generate_content(prompt)] and [response.text], which nothing
      separates in the script *)
  generate_content : string → string → result string;
  (** [boto3.client("ses", region_name=r)] *)
  boto3_client : string → result unit;
  (** [ses_client.send_raw_email(Source, Destinations, RawMessage)], with
      the rendering of the message by [msg.as_string()] *)
  send_raw_email : string → list string → MimeMessage → result SendResponse
}.

(** A remote call with its arguments. *)
Inductive call : Type :=
  | BuildGmail
  | ListMessages (q : string) (maxResults : Z)
  | GetMessage (msg_id : string)
  | BatchModify (ids : list string) (removeLabelIds : list string)
  | GenerateContent (model prompt : string)
  | SesClient (region : string)
  | SendRawEmail (source : string) (destinations : list string)
      (msg : MimeMessage).

(** What the process does that can be seen from outside, in order. *)
Inductive event : Type :=
  | Print (line : string)               (* a line on standard output *)
  | PrintExc (e : exn)                  (* traceback.print_exc() *)
  | Called (c : call) (raised : option exn).
                                        (* a remote call, and the exception
                                           it raised if it did not return *)

(** The state a run threads: the log of events so far, oldest first, and
    the ids of the unread messages of the mailbox. *)
Record State := { log : list event; unread : gset string }.

Definition add_event (ev : event) (s : State) : State :=
  {| log := log s ++ [ev]; unread := unread s |}.

(** What a [batchModify] request that succeeds does to the set of unread
    messages: the messages [ids] lose the label [UNREAD] when the request
    removes it. *)
Definition modify_labels (ids removeLabelIds : list string)
    (U : gset string) : gset string :=
  if bool_decide ("UNREAD" ∈ removeLabelIds) then U ∖ list_to_set ids else U.

(** ** Programs *)

(** How a statement ends: normally with a value, by an exception on its way
    up, or by [sys.exit(code)] ([SystemExit] is not an [Exception], no
    handler of the script catches it). *)
Inductive outcome (A : Type) : Type :=
  | Ret (a : A)
  | Raise (e : exn)
  | Exit (code : Z).
Arguments Ret {A} a.
Arguments Raise {A} e.
Arguments Exit {A} code.

Definition M (A : Type) : Type := State → outcome A * State.

Definition ret {A} (a : A) : M A := λ s, (Ret a, s).

Definition bind {A B} (m : M A) (f : A → M B) : M B :=
  λ s, match m s with
       | (Ret a, s') => f a s'
       | (Raise e, s') => (Raise e, s')
       | (Exit c, s') => (Exit c, s')
       end.

Notation "'let!' x ':=' m 'in' k" := (bind m (λ x, k))
  (at level 10, x name, m at level 100, k at level 200).
Notation "m ;; k" := (bind m (λ _, k))
  (at level 100, right associativity).

Definition raise {A} (e : exn) : M A := λ s, (Raise e, s).

(** [sys.exit(code)] *)
Definition sys_exit {A} (code : Z) : M A := λ s, (Exit code, s).

(** [print(line)] *)
Definition print (line : string) : M unit :=
  λ s, (Ret tt, add_event (Print line) s).

(** [traceback.print_exc()] in the handler of [e] *)
Definition print_exc (e : exn) : M unit :=
  λ s, (Ret tt, add_event (PrintExc e) s).

(** An expression of the standard library that may raise. *)
Definition lift {A} (r : result A) : M A :=
  match r with Ok a => ret a | Err e => raise e end.

Definition raised_by {A} (r : result A) : option exn :=
  match r with Ok _ => None | Err e => Some e end.

(** A remote call [c] that reads, answered by [r]. *)
Definition remote {A} (c : call) (r : result A) : M A :=
  λ s, (match r with Ok a => Ret a | Err e => Raise e end,
        add_event (Called c (raised_by r)) s).

(** The remote call [batchModify], answered by [r]: the mailbox changes
    when the call returns.  When the call raises, the request may or may not
    have reached the service (a time-out tells nothing): the state keeps the
    set it had, as a convention of the model and not as a fact about Gmail,
    and nothing below is concluded from it. *)
Definition remote_batchModify (ids removeLabelIds : list string)
    (r : result unit) : M unit :=
  λ s, match r with
       | Ok _ =>
           (Ret tt,
            {| log := log s ++ [Called (BatchModify ids removeLabelIds) None];
               unread := modify_labels ids removeLabelIds (unread s) |})
       | Err e =>
           (Raise e,
            add_event (Called (BatchModify ids removeLabelIds) (Some e)) s)
       end.

(** [try: body except C as e: handler(e)], where [catches e] tells whether
    [e] is an instance of [C]. *)
Definition try_except {A} (body : M A) (catches : exn → bool)
    (handler : exn → M A) : M A :=
  λ s, match body s with
       | (Raise e, s') => if catches e then handler e s' else (Raise e, s')
       | r => r
       end.

(** The exit status of the process when [main()] ends with [o]: 0 when it
    returns, the code of [sys.exit], 1 for an exception nobody caught. *)
Definition exit_status {A} (o : outcome A) : Z :=
  match o with
  | Ret _ => 0
  | Exit code => code
  | Raise _ => 1
  end.

(** Python's truth value of [os.environ.get(var)]: false when the variable
    is unset or empty. *)
Definition truthy (v : option string) : bool :=
  match v with
  | None | Some EmptyString => false
  | Some _ => true
  end.

(** [os.environ[var]] *)
Definition environ_getitem (w : World) (var : string) : M string :=
  match environ w !! var with
  | Some v => ret v
  | None => raise (KeyError ("'" +:+ var +:+ "'"))
  end.

(** ** The functions of [digest.py] *)

Definition load_gmail_credentials (w : World) : M Credentials :=
  let token_b64 := environ w !! "GMAIL_TOKEN_B64" in
  if negb (truthy token_b64) then
    raise (ValueError "GMAIL_TOKEN_B64 environment variable not set")
  else
    try_except
      (let! token_json :=
         lift (result_bind (Py.b64decode (default "" token_b64))
                 Py.decode_utf8) in
       lift (credentials_from_json w token_json))
      is_Exception
      (λ e, raise (ValueError
                     ("Failed to decode Gmail credentials: " +:+ exn_str e))).

(** The loop over [payload["parts"]]: the first part of type [text/plain]
    whose body has data is decoded, and the loop stops there. *)
Fixpoint extract_body_parts (ps : list Part) : result string :=
  match ps with
  | [] => Ok ""
  | part :: rest =>
      if String.eqb (part_mimeType part) "text/plain" then
        match data (part_body part) with
        | Some d => result_bind (Py.urlsafe_b64decode d) Py.decode_utf8
        | None => extract_body_parts rest
        end
      else extract_body_parts rest
  end.

Definition extract_body (p : Payload) : result string :=
  match parts p with
  | Some ps => extract_body_parts ps
  | None =>
      match body p with
      | Some b =>
          match data b with
          | Some d => result_bind (Py.urlsafe_b64decode d) Py.decode_utf8
          | None => Ok ""
          end
      | None => Ok ""
      end
  end.

(** [next((h["value"] for h in headers if h["name"] == key), default)] *)
Definition header_value (hs : list Header) (key dflt : string) : string :=
  match List.find (λ h, String.eqb (name h) key) hs with
  | Some h => value h
  | None => dflt
  end.

(** The loop of [get_unread_emails] over the listed messages, [email_data]
    being the list built so far. *)
Fixpoint fetch_each (w : World) (msgs : list MessageRef)
    (email_data : list Email) : M (list Email) :=
  match msgs with
  | [] => ret email_data
  | msg :: rest =>
      let! message :=
        remote (GetMessage (ref_id msg)) (messages_get w (ref_id msg)) in
      let hs := headers (payload message) in
      let subject := header_value hs "Subject" "No Subject" in
      let sender := header_value hs "From" "Unknown" in
      let date := header_value hs "Date" "Unknown" in
      let! body := lift (extract_body (payload message)) in
      fetch_each w rest
        (email_data ++ [ {| id := ref_id msg; subject := subject;
                            sender := sender; date := date;
                            email_body := py_take 1000 body |} ])
  end.

Definition get_unread_emails (w : World) (max_results : Z) : M (list Email) :=
  try_except
    (let! results :=
       remote (ListMessages "is:unread" max_results)
         (messages_list w max_results) in
     let messages := default [] (messages results) in
     match messages with
     | [] => print "No unread messages found." ;; ret []
     | _ => fetch_each w messages []
     end)
    is_HttpError
    (λ error, print ("An error occurred: " +:+ exn_str error) ;; ret []).

(** The text of one message in the prompt; [i] counts from 0. *)
Definition email_text (i : nat) (email : Email) : string :=
  "Email " +:+ str_of_nat (i + 1) +:+ ":" +:+ nl
  +:+ "From: " +:+ sender email +:+ nl
  +:+ "Subject: " +:+ subject email +:+ nl
  +:+ "Date: " +:+ date email +:+ nl
  +:+ "Preview: " +:+ py_take 500 (email_body email) +:+ "...".

Definition build_prompt (emails : list Email) : string :=
  let emails_text := join (nl +:+ nl) (imap email_text emails) in
  "You are a helpful assistant that summarizes newsletter emails." +:+ nl
  +:+ "Below are " +:+ str_of_nat (length emails)
  +:+ " emails from the last 24 hours. Please provide a concise summary of the key information,"
  +:+ nl
  +:+ "organized by topic or theme. Focus on actionable insights and important updates."
  +:+ nl +:+ nl +:+ emails_text +:+ nl +:+ nl
  +:+ "Please provide a well-organized summary with clear sections and bullet points.".

Definition summarize_emails_with_gemini (w : World) (emails : list Email)
    (api_key : string) : M string :=
  match emails with
  | [] => raise (ValueError "No emails to summarize")
  | _ =>
      let prompt := build_prompt emails in
      remote (GenerateContent "gemini-2.5-flash" prompt)
        (generate_content w api_key prompt)
  end.

Definition mark_emails_as_read (w : World) (email_ids : list string) : M unit :=
  match email_ids with
  | [] => ret tt
  | _ =>
      try_except
        (remote_batchModify email_ids ["UNREAD"]
           (messages_batchModify w email_ids) ;;
         print ("Marked " +:+ str_of_nat (length email_ids)
                +:+ " emails as read."))
        is_HttpError
        (λ error, print ("Error marking emails as read: " +:+ exn_str error))
  end.

Definition html_body (subject summary : string) : string :=
  nl +:+ "    <html>" +:+ nl
  +:+ "      <head></head>" +:+ nl
  +:+ "      <body>" +:+ nl
  +:+ "        <h2>" +:+ subject +:+ "</h2>" +:+ nl
  +:+ "        <div style=" +:+ dq
  +:+ "white-space: pre-wrap; font-family: Arial, sans-serif;" +:+ dq +:+ ">"
  +:+ nl +:+ summary +:+ nl
  +:+ "        </div>" +:+ nl
  +:+ "        <hr>" +:+ nl
  +:+ "        <p style=" +:+ dq +:+ "color: #666; font-size: 12px;" +:+ dq
  +:+ ">" +:+ nl
  +:+ "          This is an automated digest from your newsletter subscriptions."
  +:+ nl
  +:+ "        </p>" +:+ nl
  +:+ "      </body>" +:+ nl
  +:+ "    </html>" +:+ nl
  +:+ "    ".

Definition text_body (subject summary : string) : string :=
  subject +:+ nl +:+ nl +:+ summary +:+ nl +:+ nl +:+ "---" +:+ nl
  +:+ "This is an automated digest from your newsletter subscriptions.".

Definition send_summary_email (w : World)
    (summary source_email destination_email aws_region : string) : M bool :=
  remote (SesClient aws_region) (boto3_client w aws_region) ;;
  let subject := "Daily Newsletter Digest - " +:+ today w in
  let msg := {| mime_Subject := subject;
                mime_From := source_email;
                mime_To := destination_email;
                mime_plain := text_body subject summary;
                mime_html := html_body subject summary |} in
  try_except
    (let! response :=
       remote (SendRawEmail source_email [destination_email] msg)
         (send_raw_email w source_email [destination_email] msg) in
     print ("Email sent! Message ID: " +:+ MessageId response) ;;
     ret true)
    is_Exception
    (λ e, print ("Error sending email: " +:+ exn_str e) ;; ret false).

Definition required_vars : list string :=
  [ "GEMINI_API_KEY"; "GMAIL_TOKEN_B64"; "AWS_ACCESS_KEY_ID";
    "AWS_SECRET_ACCESS_KEY"; "SOURCE_EMAIL"; "DESTINATION_EMAIL" ].

Definition missing_vars (w : World) : list string :=
  List.filter (λ var, negb (truthy (environ w !! var))) required_vars.

(** [main], with the function that the name [summarize_emails_with_gemini]
    denotes when [main] runs as a parameter. *)
Definition main_with (summarize : list Email → string → M string)
    (w : World) : M unit :=
  print ("Starting newsletter digest at " +:+ now w) ;;
  match missing_vars w with
  | _ :: _ =>
      print ("Error: Missing required environment variables: "
             +:+ join ", " (missing_vars w)) ;;
      sys_exit 1
  | [] =>
      let! gemini_api_key := environ_getitem w "GEMINI_API_KEY" in
      let! source_email := environ_getitem w "SOURCE_EMAIL" in
      let! destination_email := environ_getitem w "DESTINATION_EMAIL" in
      let aws_region := default "us-east-1" (environ w !! "AWS_REGION") in
      try_except
        (print "Connecting to Gmail..." ;;
         let! creds := load_gmail_credentials w in
         remote BuildGmail (build_gmail w creds) ;;
         print "Fetching unread emails..." ;;
         let! emails := get_unread_emails w 50 in
         match emails with
         | [] =>
             print "No unread emails found. Nothing to do. Exiting successfully."
         | _ =>
             print ("Found " +:+ str_of_nat (length emails)
                    +:+ " unread emails.") ;;
             print "Generating summary with Gemini AI..." ;;
             let! summary :=
               try_except
                 (let! summary := summarize emails gemini_api_key in
                  print "Summary generated successfully." ;;
                  ret summary)
                 is_Exception
                 (λ e,
                    print ("Failed to generate summary: " +:+ exn_str e) ;;
                    print "Aborting. Emails will remain unread." ;;
                    sys_exit 1) in
             print "Sending digest email..." ;;
             let! success :=
               send_summary_email w summary source_email destination_email
                 aws_region in
             if negb success then
               print "Failed to send digest email. Aborting. Emails will remain unread." ;;
               sys_exit 1
             else
               print "Marking emails as read..." ;;
               let email_ids := id <$> emails in
               mark_emails_as_read w email_ids ;;
               print "Digest completed successfully!"
         end)
        is_Exception
        (λ e,
           print ("Error during execution: " +:+ exn_str e) ;;
           print_exc e ;;
           sys_exit 1)
  end.

Definition main (w : World) : M unit :=
  main_with (summarize_emails_with_gemini w) w.

(** ** Traces *)

(** The effect of the events [tr] on the set of unread messages: only a
    [batchModify] that returned changes it. *)
Fixpoint apply_trace (tr : list event) (U : gset string) : gset string :=
  match tr with
  | [] => U
  | Called (BatchModify ids removeLabelIds) None :: rest =>
      apply_trace rest (modify_labels ids removeLabelIds U)
  | _ :: rest => apply_trace rest U
  end.

(** The state after the events [tr] have happened in state [s]. *)
Definition extend (tr : list event) (s : State) : State :=
  {| log := log s ++ tr; unread := apply_trace tr (unread s) |}.

(** The events a program adds to the log when it runs in state [s]. *)
Definition trace_of {A} (m : M A) (s : State) : list event :=
  drop (length (log s)) (log (m s).2).

(** [spec m Q]: whatever the state it starts from, [m] ends with the same
    outcome [o] after the same events [tr], which satisfy [Q o tr], and the
    state it leaves is the one these events produce. *)
Definition spec {A} (m : M A) (Q : outcome A → list event → Prop) : Prop :=
  ∃ o tr, (∀ s, m s = (o, extend tr s)) ∧ Q o tr.

(** The acknowledge call. *)
Definition is_ack (ev : event) : bool :=
  match ev with Called (BatchModify _ _) _ => true | _ => false end.

(** A call of [send_raw_email] that returned: the delivery is confirmed. *)
Definition is_confirmed_send (ev : event) : bool :=
  match ev with Called (SendRawEmail _ _ _) None => true | _ => false end.

(** A call that belongs to the digest send operation. *)
Definition is_send (ev : event) : bool :=
  match ev with
  | Called (SesClient _) _ | Called (SendRawEmail _ _ _) _ => true
  | _ => false
  end.

(** The call of the summarization service. *)
Definition is_summarize (ev : event) : bool :=
  match ev with Called (GenerateContent _ _) _ => true | _ => false end.

(** A call of the fetch operation. *)
Definition is_fetch (ev : event) : bool :=
  match ev with
  | Called (ListMessages _ _) _ | Called (GetMessage _) _ => true
  | _ => false
  end.

(** No summarization, send or acknowledge call. *)
Definition is_upstream (ev : event) : bool :=
  negb (is_summarize ev || is_send ev || is_ack ev).

(** A monitor for the ordering of the pipeline: it reads the events in
    order, [confirmed] telling whether a confirmed send has been seen, and
    rejects an acknowledge call that comes before one. *)
Fixpoint ack_guarded (confirmed : bool) (tr : list event) : bool :=
  match tr with
  | [] => true
  | ev :: rest =>
      if is_ack ev then confirmed && ack_guarded confirmed rest
      else ack_guarded (confirmed || is_confirmed_send ev) rest
  end.

(** An event of the fetch operation: a line it prints or one of its two
    calls. *)
Definition fetch_event (ev : event) : bool :=
  match ev with
  | Print _ => true
  | PrintExc _ => false
  | Called c _ => is_fetch ev
  end.

(** An event that is not a call that raised. *)
Definition returned (ev : event) : bool :=
  match ev with Called _ (Some _) => false | _ => true end.

(** ** A sample mailbox *)

(** A world with two unread messages, [m1] and [m2], in which every call
    answers as given: [l] for the listing, [g] for a message, [gen] for the
    summary, [snd] for the digest and [ack] for [batchModify]. *)
Definition sample_message (subj d : string) : Message :=
  {| payload :=
       {| mimeType := "text/plain";
          headers := [ {| name := "Subject"; value := subj |} ];
          body := Some {| data := Some d |};
          parts := None |} |}.

Definition sample_environ : gmap string string :=
  list_to_map
    [ ("GEMINI_API_KEY", "key"); ("GMAIL_TOKEN_B64", "e30=");
      ("AWS_ACCESS_KEY_ID", "id"); ("AWS_SECRET_ACCESS_KEY", "secret");
      ("SOURCE_EMAIL", "from@example.org");
      ("DESTINATION_EMAIL", "to@example.org") ].

Definition sample_world (l : result ListResponse) (g : string → result Message)
    (gen : result string) (snd : result SendResponse) (ack : result unit)
    : World :=
  {| environ := sample_environ;
     now := "2026-01-01 06:00:00.000000";
     today := "2026-01-01";
     credentials_from_json := λ j, Ok {| token_info := j |};
     build_gmail := λ _, Ok tt;
     messages_list := λ _, l;
     messages_get := g;
     messages_batchModify := λ _, ack;
     generate_content := λ _ _, gen;
     boto3_client := λ _, Ok tt;
     send_raw_email := λ _ _ _, snd |}.

Definition two_unread : result ListResponse :=
  Ok {| messages := Some [ {| ref_id := "m1" |}; {| ref_id := "m2" |} ] |}.

Definition get_sample (i : string) : result Message :=
  Ok (sample_message ("News " +:+ i) "SGVsbG8=").

(** Everything succeeds. *)
Definition world_ok : World :=
  sample_world two_unread get_sample (Ok "Topic A: ...")
    (Ok {| MessageId := "abc123" |}) (Ok tt).

Definition mailbox0 : State :=
  {| log := []; unread := list_to_set ["m1"; "m2"; "m3"] |}.

(** The digest cannot be sent. *)
Definition world_send_fails : World :=
  sample_world two_unread get_sample (Ok "Topic A: ...")
    (Err (ClientError "Could not connect to the endpoint URL")) (Ok tt).

(** The listing is refused by the API. *)
Definition world_list_refused : World :=
  sample_world (Err (HttpError "<HttpError 500 when requesting messages>"))
    get_sample (Ok "Topic A: ...") (Ok {| MessageId := "abc123" |}) (Ok tt).

(** The second message cannot be fetched: the connection times out. *)
Definition world_get_times_out : World :=
  sample_world two_unread
    (λ i, if String.eqb i "m2" then Err (ClientError "timed out")
          else get_sample i)
    (Ok "Topic A: ...") (Ok {| MessageId := "abc123" |}) (Ok tt).

(** The arguments of the acknowledge calls of a trace, in order. *)
Definition acked (tr : list event) : list (list string * list string) :=
  omap (λ ev, match ev with
              | Called (BatchModify ids labels) _ => Some (ids, labels)
              | _ => None
              end) tr.

(** A call of the fetch operation that raised an exception of kind [P]. *)
Definition fetch_raised (P : exn → bool) (ev : event) : bool :=
  match ev with
  | Called c (Some e) => is_fetch ev && P e
  | _ => false
  end.

(** The summary cannot be generated: the quota is exhausted. *)
Definition world_summary_fails : World :=
  sample_world two_unread get_sample
    (Err (ClientError "429 Resource has been exhausted"))
    (Ok {| MessageId := "abc123" |}) (Ok tt).

(** The acknowledge call is refused by the API. *)
Definition world_ack_refused : World :=
  sample_world two_unread get_sample (Ok "Topic A: ...")
    (Ok {| MessageId := "abc123" |})
    (Err (HttpError "<HttpError 403 when requesting batchModify>")).

(** The connection is lost during the acknowledge call. *)
Definition world_ack_times_out : World :=
  sample_world two_unread get_sample (Ok "Topic A: ...")
    (Ok {| MessageId := "abc123" |}) (Err (ClientError "timed out")).


(** Nothing is unread. *)
Definition world_nothing_unread : World :=
  sample_world (Ok {| messages := None |}) get_sample (Ok "Topic A: ...")
    (Ok {| MessageId := "abc123" |}) (Ok tt).

(** ** Observations on traces *)

(** A call of the summarization service that raised. *)
Definition summarize_raised (ev : event) : bool :=
  match ev with Called (GenerateContent _ _) (Some _) => true | _ => false end.

(** Neither a call of the digest send nor an acknowledge call. *)
Definition no_send_no_ack (ev : event) : bool :=
  negb (is_send ev || is_ack ev).




(** The exceptions the acknowledge calls of a trace raised, in order. *)
Definition ack_failures (tr : list event) : list exn :=
  omap (λ ev, match ev with
              | Called (BatchModify _ _) (Some e) => Some e
              | _ => None
              end) tr.

(** The listing call, with which the fetch operation starts. *)
Definition is_listing (ev : event) : bool :=
  match ev with Called (ListMessages _ _) _ => true | _ => false end.

(** The digest [send_summary_email] composes from [summary]. *)
Definition digest_message (w : World)
    (summary source_email destination_email : string) : MimeMessage :=
  let subject := "Daily Newsletter Digest - " +:+ today w in
  {| mime_Subject := subject;
     mime_From := source_email;
     mime_To := destination_email;
     mime_plain := text_body subject summary;
     mime_html := html_body subject summary |}.

(** ** What the runs of [main] satisfy *)

(** When a call of the fetch raises. *)
Definition fetch_failure_post (o : outcome unit) (tr : list event) : Prop :=
  (existsb (fetch_raised is_HttpError) tr = true →
   exit_status o = 0 ∧ forallb is_upstream tr = true)
  ∧ (existsb (fetch_raised (λ e, negb (is_HttpError e))) tr = true →
     exit_status o = 1 ∧ forallb is_upstream tr = true).

(** The acknowledge calls, given the batch the fetch returns. *)
Definition acked_post (w : World) (o : outcome unit) (tr : list event)
    : Prop :=
  ∀ emails, (∀ s, (get_unread_emails w 50 s).1 = Ret emails) →
    (acked tr = [] ∨ acked tr = [(id <$> emails, ["UNREAD"])])
    ∧ (emails ≠ [] → existsb is_confirmed_send tr = true →
       acked tr = [(id <$> emails, ["UNREAD"])]).

(** When the summarization call raises. *)
Definition summarize_failure_post (o : outcome unit) (tr : list event)
    : Prop :=
  existsb summarize_raised tr = true →
  exit_status o = 1 ∧ forallb no_send_no_ack tr = true.



(** When the acknowledge call raises: [main] returns after the line of
    [mark_emails_as_read] when the exception is an [HttpError], and leaves
    through its own handler when it is not. *)
Definition ack_failure_post (o : outcome unit) (tr : list event) : Prop :=
  ∀ e, e ∈ ack_failures tr →
    if is_HttpError e then
      o = Ret tt
      ∧ Print ("Error marking emails as read: " +:+ exn_str e) ∈ tr
    else
      o = Exit 1 ∧ Print ("Error during execution: " +:+ exn_str e) ∈ tr.

(** When the fetch returns the empty batch. *)
Definition empty_batch_post (w : World) (o : outcome unit)
    (tr : list event) : Prop :=
  (∀ s, (get_unread_emails w 50 s).1 = Ret []) →
  existsb is_listing tr = true →
  exit_status o = 0 ∧ forallb is_upstream tr = true.

(** ** The extraction of the body *)







(** ** Further observations *)

(** [main] returns or leaves by [sys.exit(1)], and it returns only when
    there was nothing to do or the digest is delivered. *)
Definition exit_post (o : outcome unit) (tr : list event) : Prop :=
  (o = Ret tt ∨ o = Exit 1)
  ∧ (o = Ret tt →
     forallb is_upstream tr = true ∨ existsb is_confirmed_send tr = true).


(** The summarization, send and acknowledge calls of a trace, in order. *)
Definition downstream (tr : list event) : list event :=
  List.filter (λ ev, negb (is_upstream ev)) tr.

(** The calls [main] makes after the fetch has returned the batch [emails],
    which is not empty: each one is made when the one before has returned,
    with arguments taken from the environment, the batch and the answers
    of the calls before. *)
Definition pipeline (w : World) (emails : list Email) : list event :=
  let gemini_api_key := default "" (environ w !! "GEMINI_API_KEY") in
  let source_email := default "" (environ w !! "SOURCE_EMAIL") in
  let destination_email := default "" (environ w !! "DESTINATION_EMAIL") in
  let aws_region := default "us-east-1" (environ w !! "AWS_REGION") in
  let prompt := build_prompt emails in
  let generated := generate_content w gemini_api_key prompt in
  Called (GenerateContent "gemini-2.5-flash" prompt) (raised_by generated) ::
  match generated with
  | Err _ => []
  | Ok summary =>
      let client := boto3_client w aws_region in
      Called (SesClient aws_region) (raised_by client) ::
      match client with
      | Err _ => []
      | Ok _ =>
          let msg :=
            digest_message w summary source_email destination_email in
          let sent :=
            send_raw_email w source_email [destination_email] msg in
          Called (SendRawEmail source_email [destination_email] msg)
            (raised_by sent) ::
          match sent with
          | Err _ => []
          | Ok _ =>
              [ Called (BatchModify (id <$> emails) ["UNREAD"])
                  (raised_by (messages_batchModify w (id <$> emails))) ]
          end
      end
  end.

Arguments pipeline : simpl never.

(** The calls after the fetch, given the batch the fetch returns. *)
Definition pipeline_post (w : World) (o : outcome unit) (tr : list event)
    : Prop :=
  ∀ emails, (∀ s, (get_unread_emails w 50 s).1 = Ret emails) →
    (downstream tr = [] ∨ emails ≠ [] ∧ downstream tr = pipeline w emails)
    ∧ (existsb is_listing tr = true → emails ≠ [] →
       downstream tr = pipeline w emails).


(** The body of the loop of [get_unread_emails] as a function of the
    answers of the mailbox: the record built for the listed message [msg],
    or the exception that fetching or decoding it raises. *)
Definition fetch_one (w : World) (msg : MessageRef) : result Email :=
  result_bind (messages_get w (ref_id msg)) (λ message,
  result_bind (extract_body (payload message)) (λ body,
  let hs := headers (payload message) in
  Ok {| id := ref_id msg;
        subject := header_value hs "Subject" "No Subject";
        sender := header_value hs "From" "Unknown";
        date := header_value hs "Date" "Unknown";
        email_body := py_take 1000 body |})).

(** The loop as a function: the records of all the messages, in order, or
    the first exception. *)
Fixpoint fetch_all (w : World) (msgs : list MessageRef)
    : result (list Email) :=
  match msgs with
  | [] => Ok []
  | msg :: rest =>
      result_bind (fetch_one w msg) (λ email,
      result_bind (fetch_all w rest) (λ emails, Ok (email :: emails)))
  end.

(** Two required variables are missing: one is unset, one is empty. *)
Definition world_two_missing : World :=
  {| environ :=
       <["AWS_SECRET_ACCESS_KEY" := ""]> (delete "GEMINI_API_KEY" sample_environ);
     now := "2026-01-01 06:00:00.000000";
     today := "2026-01-01";
     credentials_from_json := λ j, Ok {| token_info := j |};
     build_gmail := λ _, Ok tt;
     messages_list := λ _, two_unread;
     messages_get := get_sample;
     messages_batchModify := λ _, Ok tt;
     generate_content := λ _ _, Ok "Topic A: ...";
     boto3_client := λ _, Ok tt;
     send_raw_email := λ _ _ _, Ok {| MessageId := "abc123" |} |}.

(** A message with a header in lower case, two [Subject] headers, a sender
    and no date. *)
Definition sample_headers : list Header :=
  [ {| name := "subject"; value := "lower case" |};
    {| name := "Subject"; value := "first" |};
    {| name := "Subject"; value := "second" |};
    {| name := "From"; value := "news@example.org" |} ].

Definition world_headers : World :=
  sample_world (Ok {| messages := Some [ {| ref_id := "m1" |} ] |})
    (λ _, Ok {| payload :=
                  {| mimeType := "text/plain";
                     headers := sample_headers;
                     body := Some {| data := Some "SGVsbG8=" |};
                     parts := None |} |})
    (Ok "Topic A: ...") (Ok {| MessageId := "abc123" |}) (Ok tt).

(** [v] is what a lookup of the header [key] gives in [hs]: the value of
    the first header whose name is [key], and [dflt] when there is none. *)
Definition first_header (hs : list Header) (key dflt v : string) : Prop :=
  ((∀ h, h ∈ hs → name h ≠ key) ∧ v = dflt)
  ∨ ∃ pre h post,
      hs = pre ++ h :: post
      ∧ (∀ h', h' ∈ pre → name h' ≠ key)
      ∧ name h = key ∧ v = value h.


(** A remote call that raised. *)
Definition call_raised (ev : event) : bool :=
  match ev with Called _ (Some _) => true | _ => false end.

(** Not a remote call: a line printed or a traceback. *)
Definition not_call (ev : event) : bool :=
  match ev with Called _ _ => false | _ => true end.

(** A monitor: no remote call is made after one that raised. *)
Fixpoint fail_fast (tr : list event) : bool :=
  match tr with
  | [] => true
  | Called _ (Some _) :: rest => forallb not_call rest
  | _ :: rest => fail_fast rest
  end.

(** The ids of the messages asked for, in the order of the calls. *)
Definition get_calls (tr : list event) : list string :=
  omap (λ ev, match ev with
              | Called (GetMessage i) _ => Some i
              | _ => None
              end) tr.

(** The calls of the fetch operation. *)
Definition fetch_calls_post (w : World) (n : Z) (o : outcome (list Email))
    (tr : list event) : Prop :=
  fail_fast tr = true
  ∧ ∀ msgs, messages_list w n = Ok {| messages := Some msgs |} →
      get_calls tr `prefix_of` (ref_id <$> msgs)
      ∧ match o with
        | Ret (_ :: _) => get_calls tr = ref_id <$> msgs
        | _ => True
        end.

(** Every run of [main] passes the monitor. *)
Definition fail_fast_post (o : outcome unit) (tr : list event) : Prop :=
  fail_fast tr = true.

(** * Proofs *)

(** ** Traces and states *)

Lemma apply_trace_app tr1 tr2 U :
  apply_trace (tr1 ++ tr2) U = apply_trace tr2 (apply_trace tr1 U).
Proof.
  revert U. induction tr1 as [|ev tr1 IH]; intros U; [done|].
  destruct ev as [| |[] []]; simpl; apply IH.
Qed.

Lemma extend_nil s : extend [] s = s.
Proof. destruct s. unfold extend. simpl. by rewrite app_nil_r. Qed.

Lemma extend_extend tr1 tr2 s :
  extend tr2 (extend tr1 s) = extend (tr1 ++ tr2) s.
Proof.
  unfold extend. simpl. by rewrite apply_trace_app, app_assoc.
Qed.

Lemma apply_trace_no_ack tr U :
  forallb (λ ev, negb (is_ack ev)) tr = true → apply_trace tr U = U.
Proof.
  induction tr as [|ev tr IH]; [done|]. simpl.
  destruct ev as [| |[] []]; simpl; try done; auto.
Qed.

Lemma trace_of_extend {A} (m : M A) s tr :
  (m s).2 = extend tr s → trace_of m s = tr.
Proof.
  intros H. unfold trace_of. rewrite H. simpl. by rewrite drop_app_length.
Qed.

(** ** Rules of the program logic *)

Section rules.
Context {A B : Type}.
Implicit Types (Q : outcome A → list event → Prop).

Lemma spec_ret (a : A) Q : Q (Ret a) [] → spec (ret a) Q.
Proof. intros H. exists (Ret a), []. split; [|done]. intros s. by rewrite extend_nil. Qed.

Lemma spec_raise e Q : Q (Raise e) [] → spec (raise e) Q.
Proof. intros H. exists (Raise e), []. split; [|done]. intros s. by rewrite extend_nil. Qed.

Lemma spec_sys_exit c Q : Q (Exit c) [] → spec (sys_exit c) Q.
Proof. intros H. exists (Exit c), []. split; [|done]. intros s. by rewrite extend_nil. Qed.

Lemma spec_lift (r : result A) Q :
  Q (match r with Ok a => Ret a | Err e => Raise e end) [] →
  spec (lift r) Q.
Proof. destruct r; [apply spec_ret | apply spec_raise]. Qed.

Lemma spec_remote c (r : result A) Q :
  is_ack (Called c None) = false →
  Q (match r with Ok a => Ret a | Err e => Raise e end)
    [Called c (raised_by r)] →
  spec (remote c r) Q.
Proof.
  intros Hc H. eexists _, [Called c (raised_by r)]. split; [|done].
  intros s. unfold remote, extend, add_event. simpl. do 2 f_equal.
  destruct c, r; simpl in *; done.
Qed.

Lemma spec_conseq (m : M A) Q Q' :
  spec m Q → (∀ o tr, Q o tr → Q' o tr) → spec m Q'.
Proof. intros (o & tr & ? & ?) HQ. exists o, tr. eauto. Qed.

Lemma spec_bind (m : M A) (f : A → M B) (Q : outcome B → list event → Prop) :
  spec m (λ o tr1,
    match o with
    | Ret a => spec (f a) (λ o2 tr2, Q o2 (tr1 ++ tr2))
    | Raise e => Q (Raise e) tr1
    | Exit c => Q (Exit c) tr1
    end) →
  spec (bind m f) Q.
Proof.
  intros ([a|e|c] & tr1 & Hm & HQ); unfold bind.
  - destruct HQ as (o2 & tr2 & Hf & HQ). exists o2, (tr1 ++ tr2).
    split; [|done]. intros s. by rewrite Hm, Hf, extend_extend.
  - exists (Raise e), tr1. split; [|done]. intros s. by rewrite Hm.
  - exists (Exit c), tr1. split; [|done]. intros s. by rewrite Hm.
Qed.

Lemma spec_try_except (body : M A) (catches : exn → bool)
    (handler : exn → M A) Q :
  spec body (λ o tr1,
    match o with
    | Raise e =>
        if catches e then spec (handler e) (λ o2 tr2, Q o2 (tr1 ++ tr2))
        else Q (Raise e) tr1
    | _ => Q o tr1
    end) →
  spec (try_except body catches handler) Q.
Proof.
  intros ([a|e|c] & tr1 & Hm & HQ); unfold try_except.
  - exists (Ret a), tr1. split; [|done]. intros s. by rewrite Hm.
  - destruct (catches e) eqn:Hc.
    + destruct HQ as (o2 & tr2 & Hf & HQ). exists o2, (tr1 ++ tr2).
      split; [|done]. intros s. by rewrite Hm, Hc, Hf, extend_extend.
    + exists (Raise e), tr1. split; [|done]. intros s. by rewrite Hm, Hc.
  - exists (Exit c), tr1. split; [|done]. intros s. by rewrite Hm.
Qed.
End rules.

Lemma spec_print line (Q : outcome unit → list event → Prop) :
  Q (Ret tt) [Print line] → spec (print line) Q.
Proof. intros H. by exists (Ret tt), [Print line]. Qed.

Lemma spec_print_exc e (Q : outcome unit → list event → Prop) :
  Q (Ret tt) [PrintExc e] → spec (print_exc e) Q.
Proof. intros H. by exists (Ret tt), [PrintExc e]. Qed.

Lemma spec_remote_batchModify ids labels r
    (Q : outcome unit → list event → Prop) :
  Q (match r with Ok a => Ret a | Err e => Raise e end)
    [Called (BatchModify ids labels) (raised_by r)] →
  spec (remote_batchModify ids labels r) Q.
Proof.
  intros H. eexists _, [Called (BatchModify ids labels) (raised_by r)].
  split; [|done]. intros s. by destruct r as [[]|].
Qed.

(** What a specification says of one run. *)
Lemma spec_run {A} (m : M A) Q s :
  spec m Q → Q (m s).1 (trace_of m s) ∧ (m s).2 = extend (trace_of m s) s.
Proof.
  intros (o & tr & Hm & HQ).
  assert (trace_of m s = tr) as ->.
  { apply trace_of_extend. by rewrite Hm. }
  by rewrite Hm.
Qed.

(** The outcome in a specification is the outcome of every run. *)
Lemma spec_outcome {A} (m : M A) Q :
  spec m Q → spec m (λ o tr, Q o tr ∧ ∀ s, (m s).1 = o).
Proof.
  intros (o & tr & Hm & HQ). exists o, tr. split; [done|]. split; [done|].
  intros s. by rewrite Hm.
Qed.

(** ** Monitors on concatenated traces *)

Lemma ack_guarded_app b tr1 tr2 :
  ack_guarded b (tr1 ++ tr2)
  = ack_guarded b tr1
    && ack_guarded (b || existsb is_confirmed_send tr1) tr2.
Proof.
  revert b. induction tr1 as [|ev tr1 IH]; intros b; simpl.
  - by rewrite orb_false_r.
  - destruct (is_ack ev) eqn:Hack.
    + rewrite IH. destruct ev as [| |[] ?]; try done; simpl.
      by rewrite andb_assoc.
    + rewrite IH. by rewrite orb_assoc.
Qed.

Lemma forallb_fetch (P : event → bool) tr :
  (∀ ev, fetch_event ev = true → P ev = true) →
  forallb fetch_event tr = true → forallb P tr = true.
Proof.
  intros HP. induction tr as [|ev tr IH]; [done|]. simpl.
  intros [H1 H2]%andb_prop. rewrite (HP _ H1). auto.
Qed.

Lemma existsb_fetch (P : event → bool) tr :
  (∀ ev, fetch_event ev = true → P ev = false) →
  forallb fetch_event tr = true → existsb P tr = false.
Proof.
  intros HP. induction tr as [|ev tr IH]; [done|]. simpl.
  intros [H1 H2]%andb_prop. rewrite (HP _ H1). auto.
Qed.

Lemma ack_guarded_fetch b tr :
  forallb fetch_event tr = true → ack_guarded b tr = true.
Proof.
  revert b. induction tr as [|ev tr IH]; intros b; [done|]. simpl.
  intros [H1 H2]%andb_prop.
  destruct ev as [| |[] ?]; try done; simpl; rewrite ?orb_false_r; auto.
Qed.

(** ** The fetch operation *)

Lemma fetch_each_spec w msgs acc :
  spec (fetch_each w msgs acc) (λ o tr,
    forallb fetch_event tr = true ∧
    match o with
    | Ret emails =>
        id <$> emails = (id <$> acc) ++ (ref_id <$> msgs)
        ∧ forallb returned tr = true
    | Raise e => ∀ c e', Called c (Some e') ∈ tr → e' = e
    | Exit _ => False
    end).
Proof.
  revert acc. induction msgs as [|msg msgs IH]; intros acc; simpl.
  - apply spec_ret. by rewrite app_nil_r.
  - apply spec_bind, spec_remote; [done|].
    destruct (messages_get w (ref_id msg)) as [message|e]; simpl.
    + apply spec_bind, spec_lift.
      destruct (extract_body (payload message)) as [body|e]; simpl.
      * eapply spec_conseq; [apply IH|]. intros o tr [Hf Ho]. split; [done|].
        destruct o as [emails|e|c]; [| |done].
        -- destruct Ho as [Hids Hret]. split; [|done].
           rewrite Hids, fmap_app. simpl. by rewrite <-app_assoc.
        -- intros c e'. specialize (Ho c e'). set_solver.
      * split; [done|]. intros c e'. set_solver.
    + split; [done|]. intros c e'. set_solver.
Qed.

Lemma get_unread_emails_spec w n :
  spec (get_unread_emails w n) (λ o tr,
    forallb fetch_event tr = true ∧
    match o with
    | Ret [] => ∀ c e, Called c (Some e) ∈ tr → is_HttpError e = true
    | Ret emails =>
        forallb returned tr = true
        ∧ ∃ msgs, messages_list w n = Ok {| messages := Some msgs |}
                  ∧ id <$> emails = ref_id <$> msgs
    | Raise e =>
        is_HttpError e = false ∧ ∀ c e', Called c (Some e') ∈ tr → e' = e
    | Exit _ => False
    end).
Proof.
  unfold get_unread_emails. apply spec_try_except, spec_bind.
  apply spec_remote; [done|].
  destruct (messages_list w n) as [[[msgs|]]|e] eqn:Hlist; simpl.
  - destruct msgs as [|msg msgs].
    + apply spec_bind, spec_print, spec_ret. split; [done|].
      intros c e. set_solver.
    + eapply spec_conseq; [apply fetch_each_spec|]. intros o tr [Hf Ho].
      destruct o as [emails|e|c]; [| |done].
      * destruct Ho as [Hids Hret]. simpl in Hids.
        destruct emails as [|email emails]; [done|].
        split; [done|]. split; [done|]. eauto.
      * destruct (is_HttpError e) eqn:He.
        -- apply spec_bind, spec_print, spec_ret. split.
           { simpl. by rewrite forallb_app, Hf. }
           intros c e'. specialize (Ho c e'). set_unfold.
           intros [?|[?|[?|[]]]]; [done| |done]. by rewrite Ho.
        -- split; [done|]. split; [done|].
           intros c e'. specialize (Ho c e'). set_solver.
  - apply spec_bind, spec_print, spec_ret. split; [done|].
    intros c e. set_solver.
  - destruct (is_HttpError e) eqn:He.
    + apply spec_bind, spec_print, spec_ret. split; [done|].
      intros c e'. set_unfold. intros [?|[?|[]]]; [congruence|done].
    + split; [done|]. split; [done|].
      intros c e'. set_solver.
Qed.

(** ** Running [main] symbolically *)

(** One step of the program logic on the program in the goal. *)
Ltac wp_step :=
  lazymatch goal with
  | |- spec (bind _ _) _ => apply spec_bind
  | |- spec (try_except _ _ _) _ => apply spec_try_except
  | |- spec (ret _) _ => apply spec_ret
  | |- spec (raise _) _ => apply spec_raise
  | |- spec (sys_exit _) _ => apply spec_sys_exit
  | |- spec (print _) _ => apply spec_print
  | |- spec (print_exc _) _ => apply spec_print_exc
  | |- spec (lift ?r) _ => apply spec_lift; destruct r as [?|?] eqn:?
  | |- spec (remote _ ?r) _ =>
      apply spec_remote; [reflexivity|]; destruct r as [?|?] eqn:?
  | |- spec (remote_batchModify _ _ ?r) _ =>
      apply spec_remote_batchModify; destruct r as [[]|?] eqn:?
  | |- spec (environ_getitem _ _) _ => unfold environ_getitem
  | |- spec (load_gmail_credentials _) _ => unfold load_gmail_credentials
  | |- spec (send_summary_email _ _ _ _ _) _ => unfold send_summary_email
  | |- spec (mark_emails_as_read _ _) _ => unfold mark_emails_as_read
  | |- spec (summarize_emails_with_gemini _ _ _) _ =>
      unfold summarize_emails_with_gemini
  | |- spec (get_unread_emails _ _) _ =>
      eapply spec_conseq; [apply spec_outcome, get_unread_emails_spec|];
      let o := fresh "o" in let tr := fresh "tr" in
      let Hf := fresh "Hfetch" in let Ho := fresh "Hres" in
      let Hout := fresh "Hout" in
      intros o tr [[Hf Ho] Hout]; destruct o as [[|? ?]|?|?];
      [| | |destruct Ho]
  | |- spec (match _ <$> _ :: _ with _ => _ end) _ => rewrite fmap_cons
  | |- if is_Exception _ then _ else _ => unfold is_Exception
  | |- if ?b then _ else _ => destruct b eqn:?
  | |- spec (match ?x with _ => _ end) _ => destruct x eqn:?
  | |- spec (let _ := _ in _) _ => cbv zeta
  end; cbn beta iota.

Ltac wp := repeat wp_step.

Lemma confirmed_send_fetch tr :
  forallb fetch_event tr = true → existsb is_confirmed_send tr = false.
Proof. apply existsb_fetch. by intros [| |[] ?]. Qed.

(** The monitor accepts every run of [main]. *)
Lemma main_ack_guarded w :
  spec (main w) (λ o tr, ack_guarded false tr = true).
Proof.
  unfold main, main_with. wp.
  all: simpl; rewrite ?ack_guarded_app; simpl.
  all: by rewrite ?(ack_guarded_fetch _ _ Hfetch),
         ?(confirmed_send_fetch _ Hfetch).
Qed.

(** What the monitor means: an acknowledge call has a confirmed send
    before it. *)
Lemma ack_guarded_sound b tr pre ev post :
  ack_guarded b tr = true → tr = pre ++ ev :: post → is_ack ev = true →
  b = true ∨ ∃ ev', ev' ∈ pre ∧ is_confirmed_send ev' = true.
Proof.
  intros Hg -> Hack. rewrite ack_guarded_app in Hg. simpl in Hg.
  rewrite Hack in Hg.
  apply andb_prop in Hg as [_ [[->|Hc]%orb_prop _]%andb_prop]; [by left|].
  right. apply existsb_exists in Hc as (ev' & Hin & Hc).
  exists ev'. by rewrite list_elem_of_In.
Qed.

Lemma ack_guarded_no_ack tr :
  ack_guarded false tr = true → existsb is_confirmed_send tr = false →
  forallb (λ ev, negb (is_ack ev)) tr = true.
Proof.
  induction tr as [|ev tr IH]; [done|]. simpl.
  destruct (is_ack ev); [done|]. simpl.
  destruct (is_confirmed_send ev); [done|]. auto.
Qed.

(** C1. In every run of [main], from any state of the mailbox and whatever
    the services answer: an acknowledge call ([batchModify]) comes only
    after a call of the digest send that returned, and a run without such a
    confirmed send makes no acknowledge call and leaves the set of unread
    messages as it was. *)
Theorem acknowledge_only_after_confirmed_send (w : World) (s : State) :
  (∀ pre ids labels raised post,
     trace_of (main w) s
     = pre ++ Called (BatchModify ids labels) raised :: post →
     ∃ source dests msg, Called (SendRawEmail source dests msg) None ∈ pre)
  ∧ ((∀ source dests msg,
        Called (SendRawEmail source dests msg) None ∉ trace_of (main w) s) →
     (∀ ids labels raised,
        Called (BatchModify ids labels) raised ∉ trace_of (main w) s)
     ∧ unread (main w s).2 = unread s).
Proof.
  destruct (spec_run (main w) _ s (main_ack_guarded w)) as [Hg Hs].
  split.
  - intros pre ids labels raised post Htr.
    destruct (ack_guarded_sound _ _ _ _ _ Hg Htr) as [?|(ev & Hin & Hc)];
      [done..|].
    destruct ev as [| |[] []]; try done. eauto.
  - intros Hno.
    assert (existsb is_confirmed_send (trace_of (main w) s) = false) as Hc.
    { apply not_true_is_false. intros (ev & Hin & Hc)%existsb_exists.
      destruct ev as [| |[] []]; try done.
      eapply Hno. by apply list_elem_of_In. }
    pose proof (ack_guarded_no_ack _ Hg Hc) as Hna. split.
    + intros ids labels raised Hin%list_elem_of_In.
      rewrite forallb_forall in Hna. by specialize (Hna _ Hin).
    + rewrite Hs. simpl. by apply apply_trace_no_ack.
Qed.

Lemma acknowledge_only_after_confirmed_send_witness :
  (∃ source dests msg,
     Called (SendRawEmail source dests msg) None
     ∈ take 16 (trace_of (main world_ok) mailbox0))
  ∧ unread (main world_send_fails mailbox0).2 = unread mailbox0.
Proof.
  split.
  - apply (proj1 (acknowledge_only_after_confirmed_send world_ok mailbox0)
             _ ["m1"; "m2"] ["UNREAD"] None
             (drop 17 (trace_of (main world_ok) mailbox0))).
    vm_compute. reflexivity.
  - apply (proj2 (acknowledge_only_after_confirmed_send
                    world_send_fails mailbox0)).
    intros source dests msg Hin%list_elem_of_In.
    assert (forallb (λ ev, negb (is_confirmed_send ev))
              (trace_of (main world_send_fails) mailbox0) = true) as Hall
      by (vm_compute; reflexivity).
    rewrite forallb_forall in Hall. by specialize (Hall _ Hin).
Defined.

(** ** Failures of the fetch *)

Lemma upstream_fetch tr :
  forallb fetch_event tr = true → forallb is_upstream tr = true.
Proof. apply forallb_fetch. by intros [| |[] ?]. Qed.

Lemma fetch_raised_returned P tr :
  forallb returned tr = true → existsb (fetch_raised P) tr = false.
Proof.
  induction tr as [|ev tr IH]; [done|]. simpl.
  intros [H1 H2]%andb_prop. rewrite IH by done.
  by destruct ev as [| |? []].
Qed.

Lemma fetch_raised_none (P : exn → bool) tr :
  (∀ c e, Called c (Some e) ∈ tr → P e = false) →
  existsb (fetch_raised P) tr = false.
Proof.
  intros H. apply not_true_is_false.
  intros (ev & Hin%list_elem_of_In & Hev)%existsb_exists.
  destruct ev as [| |c [e|]]; try done. simpl in Hev.
  apply andb_prop in Hev as [_ Hev]. by rewrite (H _ _ Hin) in Hev.
Qed.

Lemma fetch_raised_intro (P : exn → bool) tr c e :
  Called c (Some e) ∈ tr → is_fetch (Called c (Some e)) = true →
  P e = true → existsb (fetch_raised P) tr = true.
Proof.
  intros Hin%list_elem_of_In Hc HP. apply existsb_exists.
  exists (Called c (Some e)). split; [done|]. simpl in *. by rewrite Hc, HP.
Qed.

(** Rewrites the goal with what the outcome of the fetch tells about the
    calls that raised in its trace. *)
Ltac fetch_facts :=
  lazymatch goal with
  | Hres : forallb returned ?tr = true ∧ _ |- _ =>
      rewrite ?(fetch_raised_returned _ _ (proj1 Hres))
  | Hres : is_HttpError ?e = false ∧ _ |- _ =>
      rewrite ?(fetch_raised_none is_HttpError) by
        (intros ? ? Hin; rewrite (proj2 Hres _ _ Hin); exact (proj1 Hres))
  | Hres : ∀ c e, _ ∈ ?tr → is_HttpError e = true |- _ =>
      rewrite ?(fetch_raised_none (λ e, negb (is_HttpError e)) tr) by
        (intros ? ? Hin; by rewrite (Hres _ _ Hin))
  | _ => idtac
  end.

(** The run of [main] when a call of the fetch raises. *)
Lemma main_fetch_failure w : spec (main w) fetch_failure_post.
Proof.
  unfold main, main_with. wp.
  all: unfold fetch_failure_post; simpl.
  all: rewrite ?existsb_app, ?forallb_app; simpl.
  all: try (split; intros ?; done).
  all: rewrite ?orb_false_r, ?andb_true_r, ?(upstream_fetch _ Hfetch).
  all: fetch_facts.
  all: by split.
Qed.

(** The fetch operation on its own when one of its calls raises. *)
Lemma get_unread_emails_failure w n s c e :
  Called c (Some e) ∈ trace_of (get_unread_emails w n) s →
  (get_unread_emails w n s).1 = if is_HttpError e then Ret [] else Raise e.
Proof.
  destruct (spec_run _ _ s (get_unread_emails_spec w n)) as [[Hf Ho] _].
  intros Hin. destruct (get_unread_emails w n s).1 as [[|email emails]|e0|].
  - by rewrite (Ho _ _ Hin).
  - destruct Ho as [Hret _]. apply list_elem_of_In in Hin.
    rewrite forallb_forall in Hret. by specialize (Hret _ Hin).
  - destruct Ho as [He0 Hall]. rewrite (Hall _ _ Hin). by rewrite He0.
  - done.
Qed.

(** Where a call of the fetch appears in a run of [main], what the fetch
    operation returns to [main] is what it returns on its own. *)
Lemma get_unread_emails_outcome w n s s' :
  (get_unread_emails w n s).1 = (get_unread_emails w n s').1.
Proof.
  destruct (get_unread_emails_spec w n) as (o & tr & H & _).
  by rewrite !H.
Qed.

(** When a call of the fetch raises [HttpError], the handler of
    [get_unread_emails] prints the line [An error occurred: ...] with the
    text of the exception. *)
Lemma get_unread_emails_prints w n :
  spec (get_unread_emails w n) (λ o tr,
    ∀ c e, Called c (Some e) ∈ tr → is_HttpError e = true →
      Print ("An error occurred: " +:+ exn_str e) ∈ tr).
Proof.
  unfold get_unread_emails. apply spec_try_except, spec_bind.
  apply spec_remote; [done|].
  destruct (messages_list w n) as [[[msgs|]]|e] eqn:Hlist; simpl.
  - destruct msgs as [|msg msgs].
    + apply spec_bind, spec_print, spec_ret. intros c e. set_solver.
    + eapply spec_conseq; [apply fetch_each_spec|]. intros o tr [Hf Ho].
      destruct o as [emails|e|c]; [| |done].
      * destruct Ho as [_ Hret]. intros c e Hin _. exfalso.
        assert (Called c (Some e) ∈ tr) as Hin' by (set_unfold; naive_solver).
        apply list_elem_of_In in Hin'. rewrite forallb_forall in Hret.
        by specialize (Hret _ Hin').
      * destruct (is_HttpError e) eqn:He.
        -- apply spec_bind, spec_print, spec_ret. intros c e' Hin _.
           assert (e' = e) as ->.
           { apply (Ho c). set_unfold. naive_solver. }
           set_solver.
        -- intros c e' Hin He'.
           assert (e' = e) as ->.
           { apply (Ho c). set_unfold. naive_solver. }
           congruence.
  - apply spec_bind, spec_print, spec_ret. intros c e. set_solver.
  - destruct (is_HttpError e) eqn:He.
    + apply spec_bind, spec_print, spec_ret. intros c e' Hin _.
      assert (e' = e) as -> by (set_unfold; naive_solver).
      set_solver.
    + intros c e' Hin He'.
      assert (e' = e) as -> by (set_unfold; naive_solver).
      congruence.
Qed.

(** C2, as the code has it.  When a call of the fetch (the listing or the
    fetch of one message) raises [HttpError], the fetch operation catches
    it, prints [An error occurred: ...] with the text of the exception and
    returns the empty batch, never a partial one, and the run ends with
    status 0; when it raises any other exception, the fetch operation
    raises it and the run ends with status 1.  Either way the run makes no
    summarization, send or acknowledge call. *)
Theorem fetch_failure_outcome (w : World) (s : State) (c : call) (e : exn) :
  is_fetch (Called c (Some e)) = true →
  (Called c (Some e) ∈ trace_of (get_unread_emails w 50) s →
   (get_unread_emails w 50 s).1 = (if is_HttpError e then Ret [] else Raise e)
   ∧ (is_HttpError e = true →
      Print ("An error occurred: " +:+ exn_str e)
      ∈ trace_of (get_unread_emails w 50) s))
  ∧ (Called c (Some e) ∈ trace_of (main w) s →
     exit_status (main w s).1 = (if is_HttpError e then 0 else 1)
     ∧ forallb is_upstream (trace_of (main w) s) = true).
Proof.
  intros Hc. split.
  { intros Hin. split; [by eapply get_unread_emails_failure|].
    destruct (spec_run _ _ s (get_unread_emails_prints w 50)) as [Hp _].
    intros He. by apply (Hp c e). }
  intros Hin.
  destruct (spec_run _ _ s (main_fetch_failure w)) as [[Hhttp Hother] _].
  destruct (is_HttpError e) eqn:He.
  - apply Hhttp. by eapply fetch_raised_intro.
  - apply Hother. eapply fetch_raised_intro; [done..|]. by rewrite He.
Qed.

Lemma fetch_failure_outcome_witness :
  (((get_unread_emails world_list_refused 50 mailbox0).1 = Ret []
    ∧ Print "An error occurred: <HttpError 500 when requesting messages>"
      ∈ trace_of (get_unread_emails world_list_refused 50) mailbox0)
   ∧ exit_status (main world_list_refused mailbox0).1 = 0)
  ∧ ((get_unread_emails world_get_times_out 50 mailbox0).1
     = Raise (ClientError "timed out")
     ∧ exit_status (main world_get_times_out mailbox0).1 = 1).
Proof.
  split.
  - pose proof (fetch_failure_outcome world_list_refused mailbox0
      (ListMessages "is:unread" 50)
      (HttpError "<HttpError 500 when requesting messages>") eq_refl)
      as [Hfetch Hmain].
    split.
    + destruct Hfetch as [Ho Hp].
      { vm_compute. apply list_elem_of_here. }
      split; [exact Ho|]. by apply Hp.
    + apply Hmain. vm_compute. do 4 apply list_elem_of_further.
      apply list_elem_of_here.
  - pose proof (fetch_failure_outcome world_get_times_out mailbox0
      (GetMessage "m2") (ClientError "timed out") eq_refl)
      as [Hfetch Hmain].
    split.
    + apply Hfetch. vm_compute. do 2 apply list_elem_of_further.
      apply list_elem_of_here.
    + apply Hmain. vm_compute. do 6 apply list_elem_of_further.
      apply list_elem_of_here.
Defined.

(** C2 as it is stated fails: the listing is refused with an [HttpError],
    yet the fetch operation returns the empty batch instead of raising, and
    the process exits with status 0. *)
Lemma fetch_http_error_is_not_fatal :
  Called (ListMessages "is:unread" 50)
    (Some (HttpError "<HttpError 500 when requesting messages>"))
  ∈ trace_of (main world_list_refused) mailbox0
  ∧ (get_unread_emails world_list_refused 50 mailbox0).1 = Ret []
  ∧ exit_status (main world_list_refused mailbox0).1 = 0.
Proof.
  split; [|split]; [|reflexivity..].
  vm_compute. do 4 apply list_elem_of_further. apply list_elem_of_here.
Qed.

(** ** The messages that are acknowledged *)

Lemma acked_app tr1 tr2 : acked (tr1 ++ tr2) = acked tr1 ++ acked tr2.
Proof. apply omap_app. Qed.

Lemma acked_fetch tr : forallb fetch_event tr = true → acked tr = [].
Proof.
  induction tr as [|ev tr IH]; [done|]. simpl.
  intros [H1 H2]%andb_prop. unfold acked in *. simpl.
  rewrite IH by done. by destruct ev as [| |[] ?].
Qed.

Lemma elem_of_acked tr ids labels :
  (ids, labels) ∈ acked tr ↔
  ∃ raised, Called (BatchModify ids labels) raised ∈ tr.
Proof.
  unfold acked. rewrite list_elem_of_omap. split.
  - intros (ev & Hin & Hev). destruct ev as [| |[] r]; try done.
    injection Hev as -> ->. eauto.
  - intros [raised Hin]. eauto.
Qed.

(** The acknowledge calls of a run of [main], given the batch the fetch
    returns. *)
Lemma main_acked w : spec (main w) (acked_post w).
Proof.
  unfold main, main_with. wp.
  all: unfold acked_post; intros emails Hemails.
  all: try (specialize (Hemails mailbox0); rewrite Hout in Hemails;
            injection Hemails as <-).
  all: simpl.
  all: rewrite ?acked_app, ?existsb_app; simpl.
  all: rewrite ?(acked_fetch _ Hfetch), ?(confirmed_send_fetch _ Hfetch).
  all: simpl.
  all: try (split; [by left|done]).
  all: try (split; [by right|done]).
Qed.

(** C3. Let [emails] be the batch the fetch returns.  Every acknowledge
    call of the run is made with exactly the ids of the records of the
    batch (the same ids, in the order of the batch: no id from elsewhere,
    none left out) and removes the label [UNREAD]; and when the batch is not
    empty and the digest send is confirmed, this call is made. *)
Theorem acknowledged_ids_are_the_batch (w : World) (s : State)
    (emails : list Email) :
  (get_unread_emails w 50 s).1 = Ret emails →
  (∀ ids labels raised,
     Called (BatchModify ids labels) raised ∈ trace_of (main w) s →
     ids = id <$> emails ∧ labels = ["UNREAD"]
     ∧ ∀ i, i ∈ ids ↔ ∃ email, email ∈ emails ∧ id email = i)
  ∧ (emails ≠ [] →
     (∃ source dests msg,
        Called (SendRawEmail source dests msg) None ∈ trace_of (main w) s) →
     ∃ raised,
       Called (BatchModify (id <$> emails) ["UNREAD"]) raised
       ∈ trace_of (main w) s).
Proof.
  intros Hemails.
  destruct (spec_run _ _ s (main_acked w)) as [Hacked _].
  specialize (Hacked emails) as [Hall Hsome].
  { intros s'. by rewrite (get_unread_emails_outcome w 50 s' s). }
  split.
  - intros ids labels raised Hin.
    assert ((ids, labels) ∈ acked (trace_of (main w) s)) as Hin'
      by (apply elem_of_acked; eauto).
    destruct Hall as [Hnil|Hone]; rewrite ?Hnil, ?Hone in Hin'.
    { by apply elem_of_nil in Hin'. }
    apply list_elem_of_singleton in Hin'. injection Hin' as -> ->.
    split; [done|]. split; [done|]. intros i. rewrite list_elem_of_fmap.
    naive_solver.
  - intros Hne (source & dests & msg & Hin).
    apply elem_of_acked. rewrite Hsome; [apply list_elem_of_here|done|].
    apply existsb_exists. eexists. split; [by apply list_elem_of_In|done].
Qed.

Lemma acknowledged_ids_are_the_batch_witness :
  ∃ raised,
    Called (BatchModify ["m1"; "m2"] ["UNREAD"]) raised
    ∈ trace_of (main world_ok) mailbox0.
Proof.
  refine (proj2 (acknowledged_ids_are_the_batch world_ok mailbox0
            [ {| id := "m1"; subject := "News m1"; sender := "Unknown";
                 date := "Unknown"; email_body := "Hello" |};
              {| id := "m2"; subject := "News m2"; sender := "Unknown";
                 date := "Unknown"; email_body := "Hello" |} ] _) _ _).
  - vm_compute. reflexivity.
  - discriminate.
  - eexists _, _, _. vm_compute. do 13 apply list_elem_of_further.
    apply list_elem_of_here.
Defined.

(** ** A failure of the summarization *)

Lemma summarize_raised_fetch tr :
  forallb fetch_event tr = true → existsb summarize_raised tr = false.
Proof. apply existsb_fetch. by intros [| |[] ?]. Qed.

Lemma no_send_no_ack_fetch tr :
  forallb fetch_event tr = true → forallb no_send_no_ack tr = true.
Proof. apply forallb_fetch. by intros [| |[] ?]. Qed.

Lemma main_summarize_failure w : spec (main w) summarize_failure_post.
Proof.
  unfold main, main_with. wp.
  all: unfold summarize_failure_post; simpl.
  all: rewrite ?existsb_app, ?forallb_app; simpl.
  all: rewrite ?(summarize_raised_fetch _ Hfetch),
         ?(no_send_no_ack_fetch _ Hfetch); simpl.
  all: done.
Qed.

Lemma no_send_no_ack_no_ack tr :
  forallb no_send_no_ack tr = true →
  forallb (λ ev, negb (is_ack ev)) tr = true.
Proof.
  rewrite !forallb_forall. intros H ev Hin. specialize (H ev Hin).
  unfold no_send_no_ack in H. by destruct (is_send ev), (is_ack ev).
Qed.

(** C4. When the summarization call raises in a run of [main] (the only
    way for the summarization operation to raise there, the branch of the
    empty batch being out of reach), the run ends with status 1, it makes
    no call of the digest send (neither the construction of the SES client
    nor [send_raw_email]) and no acknowledge call, and the set of unread
    messages is left as it was. *)
Theorem summarization_failure_aborts (w : World) (s : State)
    (model prompt : string) (e : exn) :
  Called (GenerateContent model prompt) (Some e) ∈ trace_of (main w) s →
  exit_status (main w s).1 = 1
  ∧ (∀ ev, ev ∈ trace_of (main w) s → is_send ev = false ∧ is_ack ev = false)
  ∧ unread (main w s).2 = unread s.
Proof.
  intros Hin.
  destruct (spec_run _ _ s (main_summarize_failure w)) as [Hpost Hs].
  destruct Hpost as [Hexit Hnone].
  { apply existsb_exists. eexists. split; [by apply list_elem_of_In|done]. }
  split; [done|]. split.
  - intros ev Hev%list_elem_of_In. rewrite forallb_forall in Hnone.
    specialize (Hnone ev Hev). unfold no_send_no_ack in Hnone.
    by destruct (is_send ev), (is_ack ev).
  - rewrite Hs. simpl. by apply apply_trace_no_ack, no_send_no_ack_no_ack.
Qed.

Lemma summarization_failure_aborts_witness :
  exit_status (main world_summary_fails mailbox0).1 = 1
  ∧ unread (main world_summary_fails mailbox0).2 = unread mailbox0.
Proof.
  pose proof (summarization_failure_aborts world_summary_fails mailbox0
    "gemini-2.5-flash"
    (build_prompt
       [ {| id := "m1"; subject := "News m1"; sender := "Unknown";
            date := "Unknown"; email_body := "Hello" |};
         {| id := "m2"; subject := "News m2"; sender := "Unknown";
            date := "Unknown"; email_body := "Hello" |} ])
    (ClientError "429 Resource has been exhausted")) as H.
  destruct H as (Hexit & _ & Hunread); [|by split].
  vm_compute. do 9 apply list_elem_of_further. apply list_elem_of_here.
Defined.

(** ** A failure of the digest send *)












(** ** A failure of the acknowledge call *)

Lemma ack_failures_app tr1 tr2 :
  ack_failures (tr1 ++ tr2) = ack_failures tr1 ++ ack_failures tr2.
Proof. apply omap_app. Qed.

Lemma ack_failures_fetch tr :
  forallb fetch_event tr = true → ack_failures tr = [].
Proof.
  induction tr as [|ev tr IH]; [done|]. simpl.
  intros [H1 H2]%andb_prop. unfold ack_failures in *. simpl.
  rewrite IH by done. by destruct ev as [| |[] ?].
Qed.

Lemma elem_of_ack_failures tr e :
  e ∈ ack_failures tr ↔
  ∃ ids labels, Called (BatchModify ids labels) (Some e) ∈ tr.
Proof.
  unfold ack_failures. rewrite list_elem_of_omap. split.
  - intros (ev & Hin & Hev). destruct ev as [| |[] [e'|]]; try done.
    injection Hev as ->. eauto.
  - intros (ids & labels & Hin). eauto.
Qed.

(** Rewrites the goal with what is known of the class of an exception. *)
Ltac class_facts :=
  repeat match goal with H : is_HttpError _ = _ |- _ => rewrite H end.

Lemma main_ack_failure w : spec (main w) ack_failure_post.
Proof.
  unfold main, main_with. wp.
  all: unfold ack_failure_post; simpl.
  all: rewrite ?ack_failures_app; simpl.
  all: rewrite ?ack_failures_app; simpl.
  all: rewrite ?(ack_failures_fetch _ Hfetch); simpl.
  all: intros e' Hin.
  all: try (by apply elem_of_nil in Hin).
  all: apply list_elem_of_singleton in Hin; subst e'.
  all: class_facts.
  all: split; [done|].
  all: set_solver.
Qed.

(** The runs of [mark_emails_as_read] on a list that is not empty: one
    acknowledge call, then a line that tells how it ended, unless the call
    raised something else than [HttpError]. *)
Lemma mark_emails_as_read_spec w ids :
  ids ≠ [] →
  spec (mark_emails_as_read w ids) (λ o tr,
    match messages_batchModify w ids with
    | Ok _ =>
        o = Ret tt
        ∧ tr = [ Called (BatchModify ids ["UNREAD"]) None;
                 Print ("Marked " +:+ str_of_nat (length ids)
                        +:+ " emails as read.") ]
    | Err e =>
        if is_HttpError e then
          o = Ret tt
          ∧ tr = [ Called (BatchModify ids ["UNREAD"]) (Some e);
                   Print ("Error marking emails as read: " +:+ exn_str e) ]
        else
          o = Raise e ∧ tr = [ Called (BatchModify ids ["UNREAD"]) (Some e) ]
    end).
Proof.
  intros Hne. unfold mark_emails_as_read. destruct ids as [|i ids]; [done|].
  wp; simpl.
  all: class_facts.
  all: done.
Qed.

(** C6, as the code has it.  When the acknowledge call raises [HttpError],
    [mark_emails_as_read] prints [Error marking emails as read: ...] and
    returns, [main] returns and the run ends with status 0; when it raises
    any other exception, [mark_emails_as_read] lets it go up, the handler of
    [main] prints [Error during execution: ...] and the run ends with
    status 1.  Either way a call of [send_raw_email] has returned before the
    acknowledge call: the digest has been sent. *)
Theorem acknowledge_failure_outcome (w : World) (s : State)
    (ids labels : list string) (e : exn) :
  (ids ≠ [] → messages_batchModify w ids = Err e →
   (mark_emails_as_read w ids s).1
   = (if is_HttpError e then Ret tt else Raise e)
   ∧ (is_HttpError e = true →
      Print ("Error marking emails as read: " +:+ exn_str e)
      ∈ trace_of (mark_emails_as_read w ids) s))
  ∧ (Called (BatchModify ids labels) (Some e) ∈ trace_of (main w) s →
     exit_status (main w s).1 = (if is_HttpError e then 0 else 1)
     ∧ (∃ pre post,
          trace_of (main w) s
          = pre ++ Called (BatchModify ids labels) (Some e) :: post
          ∧ ∃ source dests msg,
              Called (SendRawEmail source dests msg) None ∈ pre)
     ∧ (if is_HttpError e then
          (main w s).1 = Ret tt
          ∧ Print ("Error marking emails as read: " +:+ exn_str e)
            ∈ trace_of (main w) s
        else
          (main w s).1 = Exit 1
          ∧ Print ("Error during execution: " +:+ exn_str e)
            ∈ trace_of (main w) s)).
Proof.
  split.
  - intros Hne Herr.
    destruct (spec_run _ _ s (mark_emails_as_read_spec w ids Hne)) as [H _].
    rewrite Herr in H. destruct (is_HttpError e); destruct H as [-> ->].
    + split; [done|]. intros _. apply list_elem_of_further, list_elem_of_here.
    + done.
  - intros Hin.
    destruct (spec_run _ _ s (main_ack_failure w)) as [Hpost _].
    specialize (Hpost e).
    assert (e ∈ ack_failures (trace_of (main w) s)) as Hfail.
    { apply elem_of_ack_failures. eauto. }
    specialize (Hpost Hfail). split_and!.
    + destruct (is_HttpError e); destruct Hpost as [-> _]; done.
    + destruct (list_elem_of_split _ _ Hin) as (pre & post & Htr).
      exists pre, post. split; [done|].
      destruct (spec_run _ _ s (main_ack_guarded w)) as [Hg _].
      destruct (ack_guarded_sound _ _ _ _ _ Hg Htr) as [?|(ev & Hev & Hc)];
        [done..|].
      destruct ev as [| |[] []]; try done. eauto.
    + done.
Qed.

Lemma acknowledge_failure_outcome_witness :
  ((mark_emails_as_read world_ack_refused ["m1"; "m2"] mailbox0).1 = Ret tt
   ∧ exit_status (main world_ack_refused mailbox0).1 = 0)
  ∧ ((mark_emails_as_read world_ack_times_out ["m1"; "m2"] mailbox0).1
     = Raise (ClientError "timed out")
     ∧ exit_status (main world_ack_times_out mailbox0).1 = 1).
Proof.
  split.
  - pose proof (acknowledge_failure_outcome world_ack_refused mailbox0
      ["m1"; "m2"] ["UNREAD"]
      (HttpError "<HttpError 403 when requesting batchModify>"))
      as [Hmark Hmain].
    split.
    + apply Hmark; [discriminate|reflexivity].
    + apply Hmain. vm_compute. do 16 apply list_elem_of_further.
      apply list_elem_of_here.
  - pose proof (acknowledge_failure_outcome world_ack_times_out mailbox0
      ["m1"; "m2"] ["UNREAD"] (ClientError "timed out")) as [Hmark Hmain].
    split.
    + apply Hmark; [discriminate|reflexivity].
    + apply Hmain. vm_compute. do 16 apply list_elem_of_further.
      apply list_elem_of_here.
Defined.

(** C6 as it is stated fails: the digest is sent, the acknowledge call then
    fails with an exception that is not an [HttpError] (the connection
    times out), the exception goes up to the handler of [main] and the
    process exits with status 1. *)
Lemma acknowledge_failure_can_be_fatal :
  Called (SendRawEmail "from@example.org" ["to@example.org"]
            (digest_message world_ack_times_out "Topic A: ..."
               "from@example.org" "to@example.org")) None
  ∈ trace_of (main world_ack_times_out) mailbox0
  ∧ Called (BatchModify ["m1"; "m2"] ["UNREAD"])
      (Some (ClientError "timed out"))
    ∈ trace_of (main world_ack_times_out) mailbox0
  ∧ (main world_ack_times_out mailbox0).1 = Exit 1
  ∧ exit_status (main world_ack_times_out mailbox0).1 = 1.
Proof.
  split; [|split; [|split]]; [| |reflexivity..].
  - vm_compute. do 13 apply list_elem_of_further. apply list_elem_of_here.
  - vm_compute. do 16 apply list_elem_of_further. apply list_elem_of_here.
Qed.

(** C10. On the empty list [mark_emails_as_read] returns at once, in the
    state it started from: no call, no line printed, no exception; and the
    empty list is the only one on which it makes no acknowledge call. *)
Theorem mark_nothing_as_read (w : World) (s : State) (ids : list string) :
  mark_emails_as_read w [] s = (Ret tt, s)
  ∧ ((∀ labels raised,
        Called (BatchModify ids labels) raised
        ∉ trace_of (mark_emails_as_read w ids) s) ↔ ids = []).
Proof.
  split; [done|]. split.
  - intros Hno. destruct ids as [|i ids]; [done|]. exfalso.
    assert (i :: ids ≠ []) as Hne by done.
    destruct (spec_run _ _ s (mark_emails_as_read_spec w _ Hne)) as [H _].
    destruct (messages_batchModify w (i :: ids)) as [[]|e].
    + destruct H as [_ Htr]. eapply Hno. rewrite Htr. apply list_elem_of_here.
    + destruct (is_HttpError e); destruct H as [_ Htr];
        (eapply Hno; rewrite Htr; apply list_elem_of_here).
  - intros ->. intros labels raised. unfold trace_of. simpl.
    rewrite drop_all. apply not_elem_of_nil.
Qed.

(** ** The empty batch *)

Lemma main_empty_batch w : spec (main w) (empty_batch_post w).
Proof.
  unfold main, main_with. wp.
  all: unfold empty_batch_post; simpl.
  all: intros Hempty.
  all: try (specialize (Hempty mailbox0); by rewrite Hout in Hempty).
  all: rewrite ?forallb_app; simpl.
  all: rewrite ?(upstream_fetch _ Hfetch); simpl.
  all: done.
Qed.

(** C7. In a run of [main] that gets as far as the fetch and in which the
    fetch returns the empty batch, there is no summarization call, no call
    of the digest send and no acknowledge call, the set of unread messages
    is left as it was, and the run ends with status 0. *)
Theorem empty_batch_ends_the_run (w : World) (s : State)
    (q : string) (n : Z) (raised : option exn) :
  Called (ListMessages q n) raised ∈ trace_of (main w) s →
  (get_unread_emails w 50 s).1 = Ret [] →
  exit_status (main w s).1 = 0
  ∧ (∀ ev, ev ∈ trace_of (main w) s →
       is_summarize ev = false ∧ is_send ev = false ∧ is_ack ev = false)
  ∧ unread (main w s).2 = unread s.
Proof.
  intros Hin Hempty.
  destruct (spec_run _ _ s (main_empty_batch w)) as [Hpost Hs].
  destruct Hpost as [Hexit Hup].
  { intros s'. by rewrite (get_unread_emails_outcome w 50 s' s). }
  { apply existsb_exists. eexists. split; [by apply list_elem_of_In|done]. }
  split; [done|]. split.
  - intros ev Hev%list_elem_of_In. rewrite forallb_forall in Hup.
    specialize (Hup ev Hev). unfold is_upstream in Hup.
    by destruct (is_summarize ev), (is_send ev), (is_ack ev).
  - rewrite Hs. simpl. apply apply_trace_no_ack.
    rewrite forallb_forall in Hup |- *. intros ev Hev.
    specialize (Hup ev Hev). unfold is_upstream in Hup.
    by destruct (is_summarize ev), (is_send ev), (is_ack ev).
Qed.

Lemma empty_batch_ends_the_run_witness :
  exit_status (main world_nothing_unread mailbox0).1 = 0
  ∧ unread (main world_nothing_unread mailbox0).2 = unread mailbox0.
Proof.
  destruct (empty_batch_ends_the_run world_nothing_unread mailbox0
              "is:unread" 50 None) as (Hexit & _ & Hunread).
  - vm_compute. do 4 apply list_elem_of_further. apply list_elem_of_here.
  - reflexivity.
  - by split.
Defined.

(** ** The summarizer on the empty batch *)

Lemma bind_ext {A B} (m : M A) (f g : A → M B) s :
  (∀ a s', f a s' = g a s') → bind m f s = bind m g s.
Proof. intros H. unfold bind. by destruct (m s) as [[a|e|c] s']. Qed.

Lemma try_except_ext {A} (body body' : M A) catches handler s :
  body s = body' s →
  try_except body catches handler s = try_except body' catches handler s.
Proof. intros H. unfold try_except. by rewrite H. Qed.

(** C9. On the empty batch [summarize_emails_with_gemini] raises
    [ValueError("No emails to summarize")] without calling the service; and
    [main] never calls its summarizer on the empty batch: whatever the
    summarizer is, replacing what it does on the empty batch by any other
    program [alt] changes no run of [main], neither its outcome nor its
    events nor the mailbox. *)
Theorem summarize_empty_batch_unreachable (w : World) (s : State)
    (api_key : string) :
  summarize_emails_with_gemini w [] api_key s
  = (Raise (ValueError "No emails to summarize"), s)
  ∧ ∀ (summarize : list Email → string → M string) (alt : M string),
      main_with (λ emails key,
                   match emails with
                   | [] => alt
                   | _ => summarize emails key
                   end) w s
      = main_with summarize w s.
Proof.
  split; [done|]. intros summarize alt. unfold main_with.
  apply bind_ext. intros _ s1. destruct (missing_vars w); [|done].
  repeat (apply bind_ext; intros ? ?).
  apply try_except_ext. repeat (apply bind_ext; intros ? ?).
  match goal with |- match ?l with _ => _ end _ = _ => destruct l end; done.
Qed.

(** ** The extraction of the body *)









(** ** Credentials *)



(** ** Missing configuration *)

Lemma elem_of_missing_vars w var :
  var ∈ missing_vars w ↔
  var ∈ required_vars ∧ (environ w !! var = None ∨ environ w !! var = Some "").
Proof.
  unfold missing_vars. rewrite !list_elem_of_In, filter_In.
  rewrite <-list_elem_of_In. unfold truthy.
  destruct (environ w !! var) as [[|c v]|]; simpl; naive_solver.
Qed.

Lemma filter_sublist {A} (f : A → bool) (l : list A) :
  List.filter f l `sublist_of` l.
Proof.
  induction l as [|x l IH]; simpl; [constructor|].
  destruct (f x); by constructor.
Qed.

(** When a required variable is unset or empty, [main] prints its first
    line and one line that lists the missing variables, then leaves by
    [sys.exit(1)]: no remote call is made and the mailbox is as it was.  A
    variable is listed exactly when it is required and unset or empty, and
    the list is a subsequence of [required_vars]: the variables come in the
    order of [required_vars]. *)
Theorem missing_configuration_is_fatal (w : World) (s : State) :
  missing_vars w ≠ [] →
  main w s
  = (Exit 1,
     extend [ Print ("Starting newsletter digest at " +:+ now w);
              Print ("Error: Missing required environment variables: "
                     +:+ join ", " (missing_vars w)) ] s)
  ∧ (∀ var, var ∈ missing_vars w ↔
       var ∈ required_vars
       ∧ (environ w !! var = None ∨ environ w !! var = Some ""))
  ∧ missing_vars w `sublist_of` required_vars.
Proof.
  intros Hmissing.
  split; [|split; [apply elem_of_missing_vars|apply filter_sublist]].
  unfold main, main_with, bind, print. simpl.
  destruct (missing_vars w) as [|var vars]; [done|]. simpl.
  unfold sys_exit, extend, add_event. simpl. by rewrite <-app_assoc.
Qed.

Lemma missing_configuration_is_fatal_witness :
  (main world_two_missing mailbox0).1 = Exit 1
  ∧ trace_of (main world_two_missing) mailbox0
    = [ Print "Starting newsletter digest at 2026-01-01 06:00:00.000000";
        Print "Error: Missing required environment variables: GEMINI_API_KEY, AWS_SECRET_ACCESS_KEY" ]
  ∧ ["GEMINI_API_KEY"; "AWS_SECRET_ACCESS_KEY"] `sublist_of` required_vars.
Proof.
  assert (missing_vars world_two_missing ≠ []) as H
    by (vm_compute; discriminate).
  pose proof (missing_configuration_is_fatal world_two_missing mailbox0 H)
    as (Hrun & _ & Horder).
  split; [|split].
  - by rewrite Hrun.
  - apply trace_of_extend. rewrite Hrun. vm_compute. reflexivity.
  - exact Horder.
Defined.

(** ** The exit status *)

Lemma missing_vars_nil w var :
  missing_vars w = [] → existsb (String.eqb var) required_vars = true →
  environ w !! var ≠ None.
Proof.
  intros Hnil (var' & Hin & ->%String.eqb_eq)%existsb_exists Hnone.
  assert (var' ∈ missing_vars w) as Hmiss.
  { apply elem_of_missing_vars. split; [by apply list_elem_of_In|by left]. }
  rewrite Hnil in Hmiss. by apply elem_of_nil in Hmiss.
Qed.

(** Closes a goal in which a required variable is both set and unset. *)
Ltac env_facts :=
  try match goal with
      | Hm : missing_vars ?w = [], Hn : environ ?w !! ?var = None |- _ =>
          by destruct (missing_vars_nil w var Hm eq_refl)
      end.

Lemma main_exit w : spec (main w) exit_post.
Proof.
  unfold main, main_with. wp.
  all: env_facts.
  all: unfold exit_post; simpl.
  all: try (split; [by right|done]).
  all: rewrite ?existsb_app, ?forallb_app; simpl.
  all: rewrite ?(upstream_fetch _ Hfetch); simpl.
  all: try (split; [by left|by left]).
  all: try (split; [by left|intros _; right; by rewrite ?orb_true_r]).
Qed.

(** [main] either returns or leaves by [sys.exit(1)]: no exception gets
    out of it (the [KeyError] of [os.environ[...]] included, the variables
    read having been checked), so the exit status of the process is 0 or
    1. *)
Theorem main_returns_or_exits (w : World) (s : State) :
  ((main w s).1 = Ret tt ∨ (main w s).1 = Exit 1)
  ∧ (exit_status (main w s).1 = 0 ∨ exit_status (main w s).1 = 1)
  ∧ ∀ e, (main w s).1 ≠ Raise e.
Proof.
  destruct (spec_run _ _ s (main_exit w)) as [[[->| ->] _] _];
    (split; [auto|split; [auto|done]]).
Qed.

(** A run that ends with status 0 either made no summarization, send or
    acknowledge call at all (there was nothing to do) or made a call of
    [send_raw_email] that returned: success is never reported for a digest
    that was not handed over. *)
Theorem success_means_delivered_or_nothing_to_do (w : World) (s : State) :
  exit_status (main w s).1 = 0 →
  (∀ ev, ev ∈ trace_of (main w) s →
     is_summarize ev = false ∧ is_send ev = false ∧ is_ack ev = false)
  ∨ ∃ source dests msg,
      Called (SendRawEmail source dests msg) None ∈ trace_of (main w) s.
Proof.
  destruct (spec_run _ _ s (main_exit w)) as [[Ho Hret] _]. intros Hexit.
  destruct Hret as [Hup|Hsend].
  { destruct Ho as [->| Ho]; [done|]. by rewrite Ho in Hexit. }
  - left. intros ev Hev%list_elem_of_In. rewrite forallb_forall in Hup.
    specialize (Hup ev Hev). unfold is_upstream in Hup.
    by destruct (is_summarize ev), (is_send ev), (is_ack ev).
  - right. apply existsb_exists in Hsend as (ev & Hin%list_elem_of_In & Hev).
    destruct ev as [| |[] []]; try done. eauto.
Qed.

Lemma success_means_delivered_or_nothing_to_do_witness :
  (∀ ev, ev ∈ trace_of (main world_nothing_unread) mailbox0 →
     is_summarize ev = false ∧ is_send ev = false ∧ is_ack ev = false)
  ∨ ∃ source dests msg,
      Called (SendRawEmail source dests msg) None
      ∈ trace_of (main world_nothing_unread) mailbox0.
Proof.
  apply (success_means_delivered_or_nothing_to_do world_nothing_unread
           mailbox0).
  reflexivity.
Defined.

(** ** The calls of the pipeline *)

Lemma downstream_app tr1 tr2 :
  downstream (tr1 ++ tr2) = downstream tr1 ++ downstream tr2.
Proof. apply List.filter_app. Qed.

Lemma downstream_fetch tr :
  forallb fetch_event tr = true → downstream tr = [].
Proof.
  induction tr as [|ev tr IH]; [done|]. simpl.
  intros [H1 H2]%andb_prop. unfold downstream in *. simpl.
  rewrite IH by done. by destruct ev as [| |[] ?].
Qed.

(** What [pipeline] is, by the call at which it stops. *)
Section pipeline_cases.
Context (w : World) (emails : list Email).
Context (key src dst : string).
Hypothesis Hkey : environ w !! "GEMINI_API_KEY" = Some key.
Hypothesis Hsrc : environ w !! "SOURCE_EMAIL" = Some src.
Hypothesis Hdst : environ w !! "DESTINATION_EMAIL" = Some dst.

Lemma pipeline_summarize_raised e :
  generate_content w key (build_prompt emails) = Err e →
  pipeline w emails
  = [ Called (GenerateContent "gemini-2.5-flash" (build_prompt emails))
        (Some e) ].
Proof.
  intros Hgen. unfold pipeline. rewrite Hkey. simpl. by rewrite Hgen.
Qed.

Lemma pipeline_client_raised summary e :
  generate_content w key (build_prompt emails) = Ok summary →
  boto3_client w (default "us-east-1" (environ w !! "AWS_REGION")) = Err e →
  pipeline w emails
  = [ Called (GenerateContent "gemini-2.5-flash" (build_prompt emails)) None;
      Called (SesClient (default "us-east-1" (environ w !! "AWS_REGION")))
        (Some e) ].
Proof.
  intros Hgen Hclient. unfold pipeline. rewrite Hkey. simpl.
  by rewrite Hgen, Hclient.
Qed.

Lemma pipeline_send_raised summary client e :
  generate_content w key (build_prompt emails) = Ok summary →
  boto3_client w (default "us-east-1" (environ w !! "AWS_REGION"))
  = Ok client →
  send_raw_email w src [dst] (digest_message w summary src dst) = Err e →
  pipeline w emails
  = [ Called (GenerateContent "gemini-2.5-flash" (build_prompt emails)) None;
      Called (SesClient (default "us-east-1" (environ w !! "AWS_REGION")))
        None;
      Called (SendRawEmail src [dst] (digest_message w summary src dst))
        (Some e) ].
Proof.
  intros Hgen Hclient Hsend. unfold pipeline. rewrite Hkey, Hsrc, Hdst.
  simpl. by rewrite Hgen, Hclient, Hsend.
Qed.

Lemma pipeline_acknowledge summary client response ack :
  generate_content w key (build_prompt emails) = Ok summary →
  boto3_client w (default "us-east-1" (environ w !! "AWS_REGION"))
  = Ok client →
  send_raw_email w src [dst] (digest_message w summary src dst)
  = Ok response →
  raised_by (messages_batchModify w (id <$> emails)) = ack →
  pipeline w emails
  = [ Called (GenerateContent "gemini-2.5-flash" (build_prompt emails)) None;
      Called (SesClient (default "us-east-1" (environ w !! "AWS_REGION")))
        None;
      Called (SendRawEmail src [dst] (digest_message w summary src dst)) None;
      Called (BatchModify (id <$> emails) ["UNREAD"]) ack ].
Proof.
  intros Hgen Hclient Hsend <-. unfold pipeline. rewrite Hkey, Hsrc, Hdst.
  simpl. by rewrite Hgen, Hclient, Hsend.
Qed.
End pipeline_cases.

Lemma pipeline_post_intro (ds p : list event) (b : bool) (Q : Prop) :
  Q → ds = p → (ds = [] ∨ Q ∧ ds = p) ∧ (b = true → Q → ds = p).
Proof. auto. Qed.

(** Finds in the context the answers that tell where the pipeline stops. *)
Ltac pipeline_case :=
  symmetry;
  first
    [ eapply pipeline_summarize_raised; eassumption
    | eapply pipeline_client_raised; eassumption
    | eapply pipeline_send_raised; eassumption
    | eapply pipeline_acknowledge; [eassumption..|];
      match goal with
      | H : messages_batchModify _ _ = _ |- _ => exact (f_equal raised_by H)
      end ].

Lemma main_pipeline w : spec (main w) (pipeline_post w).
Proof.
  unfold main, main_with. wp.
  all: unfold pipeline_post; intros emails Hemails.
  all: try (specialize (Hemails mailbox0); rewrite Hout in Hemails; done).
  all: try (specialize (Hemails mailbox0); rewrite Hout in Hemails;
            injection Hemails as <-).
  all: simpl.
  all: try (split; [by left|done]).
  all: rewrite ?downstream_app, ?existsb_app; simpl.
  all: rewrite ?(downstream_fetch _ Hfetch); simpl.
  all: try (split; [by left|done]).
  all: apply pipeline_post_intro; [done|].
  all: pipeline_case.
Qed.

(** In a run of [main] that gets as far as the fetch, the fetch returning
    a batch that is not empty, the summarization, send and acknowledge
    calls are exactly those of [pipeline], in this order: one summarization
    call on the prompt built from the batch; if it returned, one
    construction of the SES client for [AWS_REGION] (default [us-east-1]);
    if it returned, one call of [send_raw_email] from [SOURCE_EMAIL] to
    [DESTINATION_EMAIL] alone with the digest built from the summary; if it
    returned, one acknowledge call on the ids of the batch.  No call is
    made twice. *)
Theorem downstream_calls_follow_the_pipeline (w : World) (s : State)
    (emails : list Email) (q : string) (n : Z) (raised : option exn) :
  (get_unread_emails w 50 s).1 = Ret emails → emails ≠ [] →
  Called (ListMessages q n) raised ∈ trace_of (main w) s →
  downstream (trace_of (main w) s) = pipeline w emails.
Proof.
  intros Hemails Hne Hin.
  destruct (spec_run _ _ s (main_pipeline w)) as [Hpost _].
  destruct (Hpost emails) as [_ Hp].
  { intros s'. by rewrite (get_unread_emails_outcome w 50 s' s). }
  apply Hp; [|done].
  apply existsb_exists. eexists. split; [by apply list_elem_of_In|done].
Qed.

Lemma downstream_calls_follow_the_pipeline_witness :
  downstream (trace_of (main world_ok) mailbox0)
  = pipeline world_ok
      [ {| id := "m1"; subject := "News m1"; sender := "Unknown";
           date := "Unknown"; email_body := "Hello" |};
        {| id := "m2"; subject := "News m2"; sender := "Unknown";
           date := "Unknown"; email_body := "Hello" |} ].
Proof.
  apply (downstream_calls_follow_the_pipeline world_ok mailbox0 _
           "is:unread" 50 None).
  - vm_compute. reflexivity.
  - discriminate.
  - vm_compute. do 4 apply list_elem_of_further. apply list_elem_of_here.
Defined.

Lemma apply_trace_downstream tr U :
  apply_trace (downstream tr) U = apply_trace tr U.
Proof.
  revert U. induction tr as [|ev tr IH]; intros U; [done|].
  unfold downstream in *. destruct ev as [| |[] []]; simpl; apply IH.
Qed.

Lemma modify_labels_unread ids U :
  modify_labels ids ["UNREAD"] U = U ∖ list_to_set ids.
Proof.
  unfold modify_labels. rewrite bool_decide_eq_true_2; [done|].
  apply list_elem_of_here.
Qed.

Lemma pipeline_acknowledged w emails ids labels U :
  Called (BatchModify ids labels) None ∈ pipeline w emails →
  apply_trace (pipeline w emails) U = U ∖ list_to_set (id <$> emails).
Proof.
  unfold pipeline. cbv zeta.
  destruct (generate_content _ _ _) as [summary|?]; simpl.
  2: { set_unfold. naive_solver. }
  destruct (boto3_client _ _) as [?|?]; simpl.
  2: { set_unfold. naive_solver. }
  destruct (send_raw_email _ _ _ _) as [?|?]; simpl.
  2: { set_unfold. naive_solver. }
  destruct (messages_batchModify _ _) as [?|?]; simpl.
  2: { set_unfold. naive_solver. }
  intros _. apply modify_labels_unread.
Qed.

(** After a run in which the acknowledge call returned, the unread
    messages of the mailbox are those that were unread before and are not
    in the fetched batch: the batch is marked read, whole, and nothing
    else is. *)
Theorem acknowledged_batch_is_marked_read (w : World) (s : State)
    (emails : list Email) (ids labels : list string) :
  (get_unread_emails w 50 s).1 = Ret emails →
  Called (BatchModify ids labels) None ∈ trace_of (main w) s →
  unread (main w s).2 = unread s ∖ list_to_set (id <$> emails)
  ∧ ∀ i, i ∈ unread (main w s).2 ↔
         i ∈ unread s ∧ ∀ email, email ∈ emails → id email ≠ i.
Proof.
  intros Hemails Hin.
  destruct (spec_run _ _ s (main_pipeline w)) as [Hpost Hs].
  destruct (Hpost emails) as [Hp _].
  { intros s'. by rewrite (get_unread_emails_outcome w 50 s' s). }
  assert (Called (BatchModify ids labels) None
          ∈ downstream (trace_of (main w) s)) as Hin'.
  { unfold downstream. apply list_elem_of_In, filter_In.
    split; [by apply list_elem_of_In|done]. }
  destruct Hp as [Hnil|[Hne Hp]].
  { rewrite Hnil in Hin'. by apply elem_of_nil in Hin'. }
  rewrite Hp in Hin'.
  assert (unread (main w s).2 = unread s ∖ list_to_set (id <$> emails))
    as Hunread.
  { rewrite Hs. simpl. rewrite <-apply_trace_downstream, Hp.
    by eapply pipeline_acknowledged. }
  split; [done|]. intros i. rewrite Hunread.
  rewrite elem_of_difference, elem_of_list_to_set, list_elem_of_fmap.
  naive_solver.
Qed.

Lemma acknowledged_batch_is_marked_read_witness :
  unread (main world_ok mailbox0).2 = {[ "m3" ]}.
Proof.
  destruct (acknowledged_batch_is_marked_read world_ok mailbox0
    [ {| id := "m1"; subject := "News m1"; sender := "Unknown";
         date := "Unknown"; email_body := "Hello" |};
      {| id := "m2"; subject := "News m2"; sender := "Unknown";
         date := "Unknown"; email_body := "Hello" |} ]
    ["m1"; "m2"] ["UNREAD"]) as [Hunread _].
  - vm_compute. reflexivity.
  - vm_compute. do 16 apply list_elem_of_further. apply list_elem_of_here.
  - rewrite Hunread. apply leibniz_equiv. intros i. simpl.
    set_unfold. naive_solver.
Defined.

(** ** Slices *)





(** ** The fetch as a function *)

Lemma fetch_each_outcome w msgs acc s :
  (fetch_each w msgs acc s).1
  = match fetch_all w msgs with
    | Ok emails => Ret (acc ++ emails)
    | Err e => Raise e
    end.
Proof.
  revert acc s. induction msgs as [|msg msgs IH]; intros acc s; simpl.
  - by rewrite app_nil_r.
  - unfold fetch_one, bind, remote, lift.
    destruct (messages_get w (ref_id msg)) as [message|e]; simpl; [|done].
    destruct (extract_body (payload message)) as [body|e]; simpl; [|done].
    rewrite IH. destruct (fetch_all w msgs) as [emails|e]; simpl; [|done].
    by rewrite <-app_assoc.
Qed.

Lemma fetch_all_Forall2 w msgs emails :
  fetch_all w msgs = Ok emails →
  Forall2 (λ msg email, fetch_one w msg = Ok email) msgs emails.
Proof.
  revert emails. induction msgs as [|msg msgs IH]; intros emails; simpl.
  - intros [= <-]. constructor.
  - destruct (fetch_one w msg) as [email|e] eqn:Hone; simpl; [|done].
    destruct (fetch_all w msgs) as [rest|e]; simpl; [|done].
    intros [= <-]. constructor; auto.
Qed.

(** The outcome of [get_unread_emails], computed from the answers of the
    mailbox. *)
Lemma get_unread_emails_result (w : World) (n : Z) (s : State) :
  (get_unread_emails w n s).1
  = match result_bind (messages_list w n)
            (λ results, fetch_all w (default [] (messages results))) with
    | Ok emails => Ret emails
    | Err e => if is_HttpError e then Ret [] else Raise e
    end.
Proof.
  unfold get_unread_emails, try_except, bind, remote.
  destruct (messages_list w n) as [[[msgs|]]|e]; simpl.
  - destruct msgs as [|msg msgs]; [done|].
    pose proof (fetch_each_outcome w (msg :: msgs) []
                  (add_event (Called (ListMessages "is:unread" n) None) s))
      as Hloop.
    destruct (fetch_each w (msg :: msgs) [] _) as [o s'].
    simpl in Hloop. rewrite Hloop.
    change (result_bind (fetch_one w msg) _) with (fetch_all w (msg :: msgs)).
    destruct (fetch_all w (msg :: msgs)) as [emails|e]; [done|].
    by destruct (is_HttpError e).
  - done.
  - by destruct (is_HttpError e).
Qed.

(** What [get_unread_emails] returns is a function of the answers of the
    mailbox: the records of all the listed messages, one per message and in
    the order of the listing, when the listing and every message can be
    fetched and decoded; otherwise the empty batch when the first exception
    met is an [HttpError], and that exception when it is not.  A partial
    batch is never returned. *)
Theorem get_unread_emails_all_or_nothing (w : World) (n : Z) (s : State) :
  (get_unread_emails w n s).1
  = match result_bind (messages_list w n)
            (λ results, fetch_all w (default [] (messages results))) with
    | Ok emails => Ret emails
    | Err e => if is_HttpError e then Ret [] else Raise e
    end
  ∧ ∀ msgs emails,
      fetch_all w msgs = Ok emails →
      Forall2 (λ msg email, fetch_one w msg = Ok email) msgs emails.
Proof. split; [apply get_unread_emails_result|apply fetch_all_Forall2]. Qed.

(** ** Parts of a text *)










(** ** The calls of the fetch *)

Lemma fail_fast_app tr1 tr2 :
  fail_fast (tr1 ++ tr2)
  = if existsb call_raised tr1
    then fail_fast tr1 && forallb not_call tr2
    else fail_fast tr2.
Proof.
  induction tr1 as [|ev tr1 IH]; [done|].
  destruct ev as [| |c [e|]]; simpl; try apply IH.
  apply forallb_app.
Qed.

Lemma call_raised_returned tr :
  forallb returned tr = true → existsb call_raised tr = false.
Proof.
  induction tr as [|ev tr IH]; [done|]. simpl.
  intros [H1 H2]%andb_prop. rewrite IH by done. by destruct ev as [| |? []].
Qed.

Lemma fail_fast_sound pre c e post :
  fail_fast (pre ++ Called c (Some e) :: post) = true →
  forallb not_call post = true.
Proof.
  induction pre as [|ev pre IH]; simpl; [done|].
  destruct ev as [| |c' [e'|]]; try done.
  rewrite forallb_app. simpl. by intros [_ ?]%andb_prop.
Qed.

Lemma spec_and {A} (m : M A) (Q1 Q2 : outcome A → list event → Prop) :
  spec m Q1 → spec m Q2 → spec m (λ o tr, Q1 o tr ∧ Q2 o tr).
Proof.
  intros (o1 & tr1 & H1 & HQ1) (o2 & tr2 & H2 & HQ2).
  pose proof (H1 mailbox0) as Heq. rewrite H2 in Heq.
  injection Heq as -> -> _. exists o1, tr1. by split.
Qed.

Lemma fetch_each_calls w msgs acc :
  spec (fetch_each w msgs acc) (λ o tr,
    fail_fast tr = true
    ∧ get_calls tr `prefix_of` (ref_id <$> msgs)
    ∧ match o with Ret _ => get_calls tr = ref_id <$> msgs | _ => True end).
Proof.
  revert acc. induction msgs as [|msg msgs IH]; intros acc; simpl.
  - by apply spec_ret.
  - apply spec_bind, spec_remote; [done|].
    destruct (messages_get w (ref_id msg)) as [message|e]; simpl.
    + apply spec_bind, spec_lift.
      destruct (extract_body (payload message)) as [body|e]; simpl.
      * eapply spec_conseq; [apply IH|]. intros o tr (Hff & Hpre & Ho).
        split; [done|]. split; [by apply prefix_cons|].
        destruct o; [|done..]. unfold get_calls in *. simpl. by rewrite Ho.
      * split; [done|]. split; [|done].
        apply prefix_cons, prefix_nil.
    + split; [done|]. split; [|done]. apply prefix_cons, prefix_nil.
Qed.

Lemma get_unread_emails_calls w n :
  spec (get_unread_emails w n) (fetch_calls_post w n).
Proof.
  unfold get_unread_emails, fetch_calls_post.
  apply spec_try_except, spec_bind, spec_remote; [done|].
  destruct (messages_list w n) as [[[msgs|]]|e]; simpl.
  - destruct msgs as [|msg msgs].
    + apply spec_bind, spec_print, spec_ret. split; [done|].
      intros msgs [= <-]. split; [apply prefix_nil|done].
    + eapply spec_conseq; [apply fetch_each_calls|].
      intros o tr (Hff & Hpre & Ho).
      destruct o as [emails|e|c].
      * split; [done|]. intros msgs' [= <-]. split; [done|].
        by destruct emails.
      * destruct (is_HttpError e).
        -- apply spec_bind, spec_print, spec_ret. split.
           { rewrite !fail_fast_app. simpl. rewrite Hff.
             by destruct (existsb call_raised tr). }
           intros msgs' [= <-]. split; [|done].
           unfold get_calls in *. rewrite !omap_app. simpl.
           by rewrite !app_nil_r.
        -- split; [done|]. by intros msgs' [= <-].
      * split; [done|]. by intros msgs' [= <-].
  - apply spec_bind, spec_print, spec_ret. split; [done|]. by intros msgs.
  - destruct (is_HttpError e).
    + apply spec_bind, spec_print, spec_ret. split; [done|]. by intros msgs.
    + split; [done|]. by intros msgs.
Qed.



(** ** No call after a failure *)

Lemma get_unread_emails_fail_fast w n :
  spec (get_unread_emails w n) (λ o tr,
    fail_fast tr = true
    ∧ forallb fetch_event tr = true
    ∧ match o with
      | Ret (_ :: _) => existsb call_raised tr = false
      | Exit _ => False
      | _ => True
      end).
Proof.
  eapply spec_conseq;
    [apply (spec_and _ _ _ (get_unread_emails_calls w n)
              (get_unread_emails_spec w n))|].
  intros o tr [[Hff _] [Hfetch Ho]]. split; [done|]. split; [done|].
  destruct o as [[|email emails]|e|c]; try done.
  destruct Ho as [Hret _]. by apply call_raised_returned.
Qed.

(** The steps of the program logic up to the fetch. *)
Ltac wp_to_fetch :=
  repeat lazymatch goal with
         | |- spec (get_unread_emails _ _) _ => fail
         | |- _ => wp_step
         end.

Lemma main_fail_fast w : spec (main w) fail_fast_post.
Proof.
  unfold main, main_with. wp_to_fetch.
  all: try (eapply spec_conseq; [apply get_unread_emails_fail_fast|];
            intros o tr (Hff & Hfetch & Hres);
            destruct o as [[|? ?]|?|?]; [| | |destruct Hres];
            cbn beta iota).
  all: wp.
  all: unfold fail_fast_post; simpl.
  all: try done.
  all: rewrite ?fail_fast_app, ?Hff, ?Hres; simpl.
  all: try done.
  all: by match goal with |- (if ?b then _ else _) = _ => destruct b end.
Qed.

(** In a run of [main] no remote call is made after a remote call that
    raised: nothing is retried, and a failure is followed by lines printed
    only. *)
Theorem no_call_after_a_failed_call (w : World) (s : State)
    (pre post : list event) (c : call) (e : exn) :
  trace_of (main w) s = pre ++ Called c (Some e) :: post →
  ∀ c' raised, Called c' raised ∉ post.
Proof.
  intros Htr c' raised Hin%list_elem_of_In.
  destruct (spec_run _ _ s (main_fail_fast w)) as [Hff _].
  unfold fail_fast_post in Hff. rewrite Htr in Hff.
  apply fail_fast_sound in Hff.
  rewrite forallb_forall in Hff. by specialize (Hff _ Hin).
Qed.

Lemma no_call_after_a_failed_call_witness :
  Forall (λ ev, not_call ev = true)
    (drop 7 (trace_of (main world_get_times_out) mailbox0)).
Proof.
  apply Forall_forall. intros ev Hin.
  destruct ev as [line|e|c' raised]; [done..|].
  exfalso. revert Hin.
  apply (no_call_after_a_failed_call world_get_times_out mailbox0
           (take 6 (trace_of (main world_get_times_out) mailbox0)) _
           (GetMessage "m2") (ClientError "timed out")).
  vm_compute. reflexivity.
Defined.

(** ** Headers *)

(** What [header_value] returns is the value of the first header of that
    exact name, and the default when there is none. *)
Lemma header_value_first (hs : list Header) (key dflt : string) :
  first_header hs key dflt (header_value hs key dflt).
Proof.
  unfold header_value, first_header.
  induction hs as [|h hs IH]; simpl.
  - left. split; [|done]. by intros h ?%elem_of_nil.
  - destruct (String.eqb_spec (name h) key) as [Heq|Hne].
    + right. exists [], h, hs. split_and!; try done.
      by intros h' ?%elem_of_nil.
    + destruct IH as [[Hnone Hv]|(pre & h1 & post & -> & Hpre & Hname & Hv)].
      * left. split; [|done]. intros h' [->|Hin]%elem_of_cons; auto.
      * right. exists (h :: pre), h1, post. split_and!; try done.
        intros h' [->|Hin]%elem_of_cons; auto.
Qed.

(** Every record of a batch is the record of a message that was
    fetched. *)
Lemma get_unread_emails_records (w : World) (n : Z) (s : State)
    (emails : list Email) (email : Email) :
  (get_unread_emails w n s).1 = Ret emails → email ∈ emails →
  ∃ msg, fetch_one w msg = Ok email.
Proof.
  rewrite get_unread_emails_result. intros Hret Hin.
  destruct (result_bind _ _) as [emails'|e] eqn:Hall.
  - injection Hret as ->.
    destruct (messages_list w n) as [results|e]; [|done]. simpl in Hall.
    apply fetch_all_Forall2 in Hall.
    apply list_elem_of_lookup in Hin as [i Hi].
    destruct (Forall2_lookup_r _ _ _ _ _ Hall Hi) as (msg & _ & Hone).
    by exists msg.
  - destruct (is_HttpError e); [|done]. injection Hret as <-.
    by apply elem_of_nil in Hin.
Qed.

(** In every record of a batch [get_unread_emails] returns, the subject
    is the value of the first header named [Subject] of the message with
    the id of the record, and [No Subject] when the message has none; the
    sender and the date are those of the first headers named [From] and
    [Date], and [Unknown] when there is none.  The names are compared
    exactly: a header named [subject] is not a [Subject]. *)
Theorem header_value_first_match (w : World) (n : Z) (s : State)
    (emails : list Email) (email : Email) :
  (get_unread_emails w n s).1 = Ret emails → email ∈ emails →
  ∃ message,
    messages_get w (id email) = Ok message
    ∧ first_header (headers (payload message)) "Subject" "No Subject"
        (subject email)
    ∧ first_header (headers (payload message)) "From" "Unknown"
        (sender email)
    ∧ first_header (headers (payload message)) "Date" "Unknown"
        (date email).
Proof.
  intros Hret Hin.
  destruct (get_unread_emails_records _ _ _ _ _ Hret Hin) as [msg Hone].
  unfold fetch_one in Hone.
  destruct (messages_get w (ref_id msg)) as [message|e] eqn:Hget; simpl in Hone;
    [|done].
  destruct (extract_body (payload message)) as [text|e]; simpl in Hone;
    [|done].
  injection Hone as <-. simpl. exists message.
  split_and!; [done|apply header_value_first..].
Qed.

Lemma header_value_first_match_witness :
  ∃ message,
    messages_get world_headers "m1" = Ok message
    ∧ first_header (headers (payload message)) "Subject" "No Subject" "first"
    ∧ first_header (headers (payload message)) "From" "Unknown"
        "news@example.org"
    ∧ first_header (headers (payload message)) "Date" "Unknown" "Unknown".
Proof.
  apply (header_value_first_match world_headers 50 mailbox0
           [ {| id := "m1"; subject := "first"; sender := "news@example.org";
                date := "Unknown"; email_body := "Hello" |} ]
           {| id := "m1"; subject := "first"; sender := "news@example.org";
              date := "Unknown"; email_body := "Hello" |}).
  - vm_compute. reflexivity.
  - apply list_elem_of_here.
Defined.

(** ** Nothing unread *)

(** When the listing returns no [messages] key or an empty list,
    [get_unread_emails] asks for no message: it makes the listing call,
    prints [No unread messages found.] and returns the empty batch. *)
Theorem nothing_unread_is_not_an_error (w : World) (n : Z) (s : State)
    (results : ListResponse) :
  messages_list w n = Ok results → default [] (messages results) = [] →
  get_unread_emails w n s
  = (Ret [],
     extend [ Called (ListMessages "is:unread" n) None;
              Print "No unread messages found." ] s).
Proof.
  intros Hlist Hnone. unfold get_unread_emails, try_except, bind, remote.
  rewrite Hlist. simpl. rewrite Hnone. simpl.
  unfold extend, add_event. simpl. by rewrite <-app_assoc.
Qed.

Lemma nothing_unread_is_not_an_error_witness :
  (get_unread_emails world_nothing_unread 50 mailbox0).1 = Ret [].
Proof.
  by rewrite (nothing_unread_is_not_an_error world_nothing_unread 50 mailbox0
                {| messages := None |} eq_refl eq_refl).
Defined.

(** ** Line breaks in base64 *)

Lemma bytes_of_string_app a b :
  bytes_of_string (a +:+ b) = bytes_of_string a ++ bytes_of_string b.
Proof.
  unfold bytes_of_string. induction a as [|c a IH]; [done|].
  exact (f_equal (cons (N_of_ascii c)) IH).
Qed.

Lemma a2b_loop_skip quad_pos leftchar pads nout pre c post :
  Py.table_a2b_base64 c = None → c ≠ Py.BASE64_PAD →
  Py.a2b_loop quad_pos leftchar pads nout (pre ++ c :: post)
  = Py.a2b_loop quad_pos leftchar pads nout (pre ++ post).
Proof.
  intros Hc Hpad. revert quad_pos leftchar pads nout.
  induction pre as [|b pre IH]; intros quad_pos leftchar pads nout; simpl.
  - rewrite Hc. by apply N.eqb_neq in Hpad as ->.
  - repeat case_match; try done; by rewrite ?IH.
Qed.

Lemma bytes_from_decode_data_skip a b c :
  (N_of_ascii c <? 128)%N = true →
  Py.bytes_from_decode_data (a +:+ String c b)
  = result_bind (Py.bytes_from_decode_data (a +:+ b))
      (λ _, Ok (bytes_of_string a ++ N_of_ascii c :: bytes_of_string b)).
Proof.
  intros Hascii. unfold Py.bytes_from_decode_data.
  rewrite !bytes_of_string_app.
  change (bytes_of_string (String c b))
    with (N_of_ascii c :: bytes_of_string b).
  generalize (bytes_of_string a) (bytes_of_string b). intros A B.
  rewrite !forallb_app. simpl. rewrite Hascii. simpl.
  by destruct (forallb _ A && forallb _ B).
Qed.

(** The base64 decoders the script calls ignore an ASCII character that
    is neither in the alphabet nor the padding character, wherever it
    stands: a line break in the token or in the data of a body does not
    change what is decoded. *)
Theorem b64decode_skips_other_characters (a b : string) (c : ascii) :
  (N_of_ascii c <? 128)%N = true →
  Py.table_a2b_base64 (Py.urlsafe_translate (N_of_ascii c)) = None →
  Py.table_a2b_base64 (N_of_ascii c) = None →
  N_of_ascii c ≠ Py.BASE64_PAD →
  Py.b64decode (a +:+ String c b) = Py.b64decode (a +:+ b)
  ∧ Py.urlsafe_b64decode (a +:+ String c b) = Py.urlsafe_b64decode (a +:+ b).
Proof.
  intros Hascii Hurl Hc Hpad.
  assert (Py.urlsafe_translate (N_of_ascii c) ≠ Py.BASE64_PAD) as Hpad'.
  { unfold Py.urlsafe_translate. by repeat case_match. }
  unfold Py.b64decode, Py.urlsafe_b64decode.
  rewrite bytes_from_decode_data_skip by done.
  unfold Py.bytes_from_decode_data, Py.a2b_base64.
  rewrite bytes_of_string_app.
  generalize (bytes_of_string a) (bytes_of_string b). intros A B.
  destruct (forallb _ (A ++ B)); simpl; [|done].
  rewrite !fmap_app, fmap_cons. by rewrite !a2b_loop_skip.
Qed.

Lemma b64decode_skips_other_characters_witness :
  Py.b64decode ("e3" +:+ String "010" "0=") = Py.b64decode ("e3" +:+ "0=").
Proof.
  apply (b64decode_skips_other_characters "e3" "0=" "010");
    [reflexivity|reflexivity|reflexivity|discriminate].
Defined.
